(** * pr-triage-manager: label reconciliation of [src/copy-issue-labels.ts]

    A shallow embedding of the TypeScript module that copies triage labels
    (priority, classification, effort) from the issues a pull request closes
    onto the pull request itself, together with the properties its
    specification states about it.

    Conventions of the embedding
    - a JavaScript [Set<string>] is the list of its members in insertion
      order (iteration order of a [Set]); [add] appends a new member at the
      end and leaves the set alone when the member is present;
    - [undefined] results ([Array.prototype.find] without a hit, an index out
      of range) are [None];
    - a JavaScript string that is scanned by a regular expression is the list
      of its UTF-16 code units, each an [N];
    - a number [parseInt] returns is a [JsNumber]: a double that is a
      non-negative integer, [Infinity] or [NaN];
    - calls to the GitHub client are operations of a [Gateway] over an
      explicit state of the service, which counts a request from the moment
      it is started; a rejected promise is a [Throw]. *)

From Stdlib Require Import NArith Ascii String.
From stdpp Require Import base option list strings gmap.

Open Scope string_scope.
Open Scope list_scope.
Open Scope N_scope.

(** ** JavaScript [Set<string>] in insertion order *)

Module JsSet.

(** [s.has(x)] *)
Definition has (s : list string) (x : string) : bool := bool_decide (x ∈ s).

(** [s.add(x)]: a member already present keeps its place. *)
Definition add (s : list string) (x : string) : list string :=
  if has s x then s else s ++ [x].

(** [s.delete(x)] *)
Definition delete (s : list string) (x : string) : list string :=
  filter (λ y, y ≠ x) s.

(** [new Set(xs)] over an array [xs] *)
Definition of_array (xs : list string) : list string := foldl add [] xs.

End JsSet.

(** ** The module-level helpers (lines 168-199 of the source) *)

(** [function replaceLabels(labels, remove, replace)]: the function mutates
    [labels]; the embedding returns the set after the call. *)
Definition replaceLabels (labels : list string) (remove : list string)
    (replace : option string) : list string :=
  match replace with
  | Some r => JsSet.add (foldl JsSet.delete labels remove) r
  | None => labels
  end.

Record SetDiff := { adds : list string; removes : list string }.

(** [function setDiff(xs, ys)] *)
Definition setDiff (xs ys : list string) : SetDiff :=
  {| adds := List.filter (λ y, negb (JsSet.has xs y)) ys;
     removes := List.filter (λ x, negb (JsSet.has ys x)) xs |}.

(** [function isEmptyDiff(diff)] *)
Definition isEmptyDiff (diff : SetDiff) : bool :=
  Nat.eqb (length (adds diff) + length (removes diff)) 0.

(** ** Text: strings as UTF-16 code units *)

Module Text.

Definition of_string (s : string) : list N :=
  N_of_ascii <$> list_ascii_of_string s.

(** [\d] without the unicode flag: [0-9] *)
Definition isDigit (c : N) : bool := (48 <=? c) && (c <=? 57).

(** [\w] without the unicode flag: [A-Za-z0-9_] *)
Definition isWord (c : N) : bool :=
  isDigit c || ((65 <=? c) && (c <=? 90)) || ((97 <=? c) && (c <=? 122))
  || (c =? 95).

(** The code units [.] does not match: LF, CR, LS, PS. *)
Definition isLineTerminator (c : N) : bool :=
  (c =? 10) || (c =? 13) || (c =? 8232) || (c =? 8233).

(** [String.prototype.toLowerCase] on the code units a [\w+] capture can
    hold: only [A-Z] change. (Outside ASCII JavaScript lowers more letters;
    the source calls the method on [m[1]] only, a [\w+] capture.) *)
Definition toLowerCase (s : list N) : list N :=
  (λ c, if (65 <=? c) && (c <=? 90) then c + 32 else c) <$> s.

End Text.

(** ** The fragment of JavaScript regular expressions the source uses

    Both expressions are a sequence of single-character atoms and of greedy
    capturing groups [(a+)]. A group first takes the longest run of its atom
    and gives characters back one at a time while the rest of the pattern
    fails, as the backtracking matcher of the language does. *)

Module RegExp.

Inductive atom :=
| Lit (c : N)      (* a literal character *)
| Dot              (* [.] *)
| WordChar         (* [\w] *)
| DigitChar.       (* [\d] *)

Inductive item :=
| One (a : atom)   (* [a] *)
| Plus (a : atom). (* [(a+)] *)

Definition matches (a : atom) (c : N) : bool :=
  match a with
  | Lit c' => c =? c'
  | Dot => negb (Text.isLineTerminator c)
  | WordChar => Text.isWord c
  | DigitChar => Text.isDigit c
  end.

(** Length of the longest prefix of [s] made of characters of [a]. *)
Fixpoint run (a : atom) (s : list N) : nat :=
  match s with
  | c :: s' => if matches a c then S (run a s') else O
  | [] => O
  end.

(** Try [f k], [f (k-1)], ..., [f 1] and keep the first success. *)
Fixpoint longest_first {B} (f : nat → option B) (k : nat) : option B :=
  match k with
  | O => None
  | S k' => match f k with Some r => Some r | None => longest_first f k' end
  end.

(** Match the pattern at the start of [s]: the captures, in order, and the
    text left after the match. *)
Fixpoint exec (p : list item) (s : list N) : option (list (list N) * list N) :=
  match p with
  | [] => Some ([], s)
  | One a :: p' =>
      match s with
      | c :: s' => if matches a c then exec p' s' else None
      | [] => None
      end
  | Plus a :: p' =>
      longest_first
        (λ k, match exec p' (drop k s) with
              | Some (caps, rest) => Some (take k s :: caps, rest)
              | None => None
              end)
        (run a s)
  end.

(** [Array.from(text.matchAll(regex))] for a global [regex]: the leftmost
    match from [lastIndex] on, then again from the end of that match (one
    further when the match is empty). [skip] counts the characters still to
    pass before [lastIndex] is reached. *)
Fixpoint matchAll_from (p : list item) (skip : nat) (s : list N)
    : list (list (list N)) :=
  match skip, s with
  | S k, _ :: s' => matchAll_from p k s'
  | S _, [] => []
  | O, [] => match exec p [] with Some (caps, _) => [caps] | None => [] end
  | O, _ :: s' =>
      match exec p s with
      | Some (caps, rest) =>
          caps :: matchAll_from p (length s - length rest - 1) s'
      | None => matchAll_from p 0 s'
      end
  end.

Definition matchAll (p : list item) (text : list N) : list (list (list N)) :=
  matchAll_from p 0 text.

(** [m[i]] for [i >= 1]: the [i]-th capture. *)
Definition group (i : nat) (m : list (list N)) : list N :=
  default [] (m !! (i - 1)%nat).

(** A piece of pattern source in which [.] is the only character with a
    special meaning: the fixed text of the URL pattern, and the owner and
    repository names spliced into it (GitHub names are made of letters,
    digits, [-], [_] and [.]). *)
Definition source_atom (c : N) : atom := if c =? 46 then Dot else Lit c.

Definition source (s : list N) : list item := One <$> (source_atom <$> s).

End RegExp.

(** ** Numbers

    The numbers [parseInt] can return for a string without a sign: a double
    that is a non-negative integer, given by its value, [Infinity], or [NaN]. *)
Inductive JsNumber :=
| Finite (value : N)
| Infinity
| NaN.

#[export] Instance JsNumber_eq_dec : EqDecision JsNumber.
Proof. solve_decision. Defined.

(** The double nearest to the integer [v], ties to the even significand (the
    conversion of a mathematical value to a Number value): integers below
    [2^53] are doubles; a larger one keeps its 53 leading bits, rounded, and
    becomes [Infinity] when the result reaches [2^1024]. *)
Definition toNumber (v : N) : JsNumber :=
  if v <? 2 ^ 53 then Finite v
  else
    let e := N.log2 v - 52 in
    let q := N.shiftr v e in
    let r := v mod 2 ^ e in
    let half := 2 ^ (e - 1) in
    let q' := if (half <? r) || ((r =? half) && N.odd q) then q + 1 else q in
    if q' * 2 ^ e <? 2 ^ 1024 then Finite (q' * 2 ^ e) else Infinity.

(** The integer written by decimal digits. *)
Definition decimalValue (digits : list N) : N :=
  foldl (λ acc c, 10 * acc + (c - 48)) 0 digits.

(** [parseInt(x, 10)] on a string without leading white space or sign: the
    number nearest to the value of the leading digits, [NaN] when there is no
    leading digit. (The language lets an implementation replace the digits
    after the twentieth by zeros; Node, which runs the action, converts all
    of them.) *)
Definition parseInt10 (x : list N) : JsNumber :=
  match take (RegExp.run RegExp.DigitChar x) x with
  | [] => NaN
  | digits => toNumber (decimalValue digits)
  end.

Definition GITHUB_CLOSE_ISSUE_KEYWORDS : list (list N) :=
  Text.of_string <$>
    [ "close"; "closes"; "closed"; "fix"; "fixes"; "fixed";
      "resolve"; "resolves"; "resolved" ].

(** ** Configuration and construction (lines 16-68) *)

Record PullRequsetLabelManagerOptions := {
  opt_priorityLabels : option (list string);
  opt_classificationLabels : option (list string);
  opt_effortLabels : option (list string);
  opt_pullNumbers : option (list N)
}.

(** What the constructor reads of [github.context]: the owner and the name
    of the repository, which the getter [context.repo] takes from the
    environment or the payload and throws without, and the pull request of
    the payload. *)
Record Context := {
  ctx_repo : option (list N * list N);   (* [context.repo]: owner, repo *)
  ctx_pull_request : option N       (* [context.payload.pull_request?.number] *)
}.

Record PullRequestLabelManager := {
  owner : list N;
  repo : list N;
  pullNumbers : list N;
  priorityLabels : list string;
  classificationLabels : list string;
  effortLabels : list string
}.

Inductive Error :=
| NotFound (number : N)
| NotAnIssueNumber (number : JsNumber)
| TokenRequired
| RepositoryUnknown
| ConfigurationError.

(** The constructor. Its own body has no [throw]; the two library calls it
    starts with can throw: [github.getOctokit(token)] when the token is the
    empty string, and the getter [github.context.repo] when the repository is
    not known. *)
Definition constructor (token : string)
    (options : PullRequsetLabelManagerOptions)
    (context : Context) : Error + PullRequestLabelManager :=
  if String.eqb token "" then inl TokenRequired
  else
    match ctx_repo context with
    | None => inl RepositoryUnknown
    | Some (repo_owner, repo_name) =>
        let supplied :=
          match opt_pullNumbers options with
          | Some ns => if (0 <? length ns)%nat then ns else []
          | None => []
          end in
        inr {|
          owner := repo_owner;
          repo := repo_name;
          priorityLabels :=
            default ["p0"; "p1"; "p2"] (opt_priorityLabels options);
          classificationLabels :=
            default ["bug"; "feature-request"]
              (opt_classificationLabels options);
          effortLabels :=
            default ["effort/large"; "effort/medium"; "effort/small"]
              (opt_effortLabels options);
          pullNumbers :=
            match ctx_pull_request context with
            | Some n => supplied ++ [n]
            | None => supplied
            end
        |}
    end.

(** ** The methods of the manager *)

Section Methods.

Variable this : PullRequestLabelManager.

Definition hashRegex : list RegExp.item :=
  [ RegExp.Plus RegExp.WordChar; RegExp.One (RegExp.Lit 32);
    RegExp.One (RegExp.Lit 35); RegExp.Plus RegExp.DigitChar ].

(** The text between the two groups of [urlRegex]. *)
Definition urlMiddle : list N :=
  Text.of_string " https://github.com/" ++ owner this ++ Text.of_string "/"
    ++ repo this ++ Text.of_string "/issues/".

Definition urlRegex : list RegExp.item :=
  RegExp.Plus RegExp.WordChar :: RegExp.source urlMiddle
    ++ [ RegExp.Plus RegExp.DigitChar ].

(** The inner [function issuesClosed(regex)] of [findReferencedIssues]. *)
Definition issuesClosed (text : list N) (regex : list RegExp.item)
    : list (list N) :=
  RegExp.group 2 <$>
    List.filter
      (λ m, bool_decide
              (Text.toLowerCase (RegExp.group 1 m) ∈ GITHUB_CLOSE_ISSUE_KEYWORDS))
      (RegExp.matchAll regex text).

Definition findReferencedIssues (text : list N) : list JsNumber :=
  parseInt10 <$> (issuesClosed text hashRegex ++ issuesClosed text urlRegex).

(** [this.priorityLabels.find(l => issueLabels.has(l)) ??
     this.priorityLabels.find(l => pullLabels.has(l)) ??
     this.priorityLabels[this.priorityLabels.length-1]].
    For an empty list the index is [-1] and the access is [undefined]; on
    [nat] the index is [0] and the lookup in the empty list is [None] too. *)
Definition highestPriorityLabel (issueLabels pullLabels : list string)
    : option string :=
  match List.find (JsSet.has issueLabels) (priorityLabels this) with
  | Some l => Some l
  | None =>
      match List.find (JsSet.has pullLabels) (priorityLabels this) with
      | Some l => Some l
      | None => priorityLabels this !! (length (priorityLabels this) - 1)%nat
      end
  end.

Definition classification (labels : list string) : option string :=
  List.find (JsSet.has labels) (classificationLabels this).

Definition largestEffort (labels : list string) : option string :=
  List.find (JsSet.has labels) (effortLabels this).

(** Lines 95-98 of [copyLabelsFromReferencedIssues]: the copy of the pull
    request's labels after the three [replaceLabels] calls. *)
Definition newPullLabels (pullLabels issueLabels : list string) : list string :=
  let l1 := replaceLabels pullLabels (priorityLabels this)
              (highestPriorityLabel issueLabels pullLabels) in
  let l2 := replaceLabels l1 (classificationLabels this)
              (classification issueLabels) in
  replaceLabels l2 (effortLabels this) (largestEffort issueLabels).

(** Lines 88-100: from the label names of the pull request and the label
    names answered for each referenced issue, the new set and the diff. *)
Definition reconcile (names : list string) (answers : list (list string))
    : list string * SetDiff :=
  let pullLabels := JsSet.of_array names in
  let issueLabels := JsSet.of_array (concat answers) in
  let newLabels := newPullLabels pullLabels issueLabels in
  (newLabels, setDiff pullLabels newLabels).

End Methods.

(** ** The GitHub client, as seen by the manager

    [pull.data] and [issue.data] carry labels in the shapes the REST API
    declares: the labels of a pull request are objects whose [name] may be
    missing, those of an issue are strings or such objects. *)

Inductive RawLabel :=
| LabelString (s : string)
| LabelObject (name : option string).

Record PullData := {
  body : option (list N);           (* [null] when the description is empty *)
  labels : list (option string)
}.

(** The four requests the manager sends, over a state [W] of the service. A
    request either answers or is rejected. The state is the service as the
    requests started so far make it: a label request counts from the moment
    it is started, whether or not the manager waits for its answer. *)
Class Gateway (W : Type) := {
  pulls_get : N → W → Error + PullData;
  issues_get : JsNumber → W → Error + list RawLabel;
  issues_addLabels : N → list string → W → Error + W;
  issues_removeLabel : N → string → W → Error + W
}.

(** The result of an [async] method: it returns or it throws, and either way
    leaves the service in a state, the one made by the requests started up to
    then. *)
Inductive Outcome (W A : Type) :=
| Return (a : A) (w : W)
| Throw (e : Error) (w : W).
Arguments Return {W A} a w.
Arguments Throw {W A} e w.

Definition final_state {W A} (o : Outcome W A) : W :=
  match o with Return _ w => w | Throw _ w => w end.

Section Async.

Context {W : Type} `{Gateway W}.
Variable this : PullRequestLabelManager.

(** [private async issueLabels(issue_number)] *)
Definition issueLabels (issue_number : JsNumber) (w : W)
    : Error + list string :=
  match issues_get issue_number w with
  | inr ls =>
      inr ((λ l, match l with
                 | LabelString s => s
                 | LabelObject name => default "" name
                 end) <$> ls)
  | inl e => inl e
  end.

(** [await Promise.all(references.map((issue) => this.issueLabels(issue)))]:
    the requests only read, so the order in which they are answered does
    not show; the result is rejected as soon as one of them is. *)
Fixpoint allIssueLabels (references : list JsNumber) (w : W)
    : Error + list (list string) :=
  match references with
  | [] => inr []
  | issue :: rest =>
      match issueLabels issue w with
      | inl e => inl e
      | inr ls =>
          match allIssueLabels rest w with
          | inl e => inl e
          | inr lss => inr (ls :: lss)
          end
      end
  end.

(** The two label mutations of lines 107-120. The array given to
    [Promise.all] is built first: that starts the [addLabels] request and
    then, inside [forEach], every [removeLabel] request. The method waits for
    the answer to [addLabels] only; the result of [forEach] is [undefined],
    so the answers to the removals, rejections included, reach nobody. The
    requests are written here in the order they are started, and the state
    the method ends in counts all of them as started, not as answered. *)
Definition applyDiff (pullNumber : N) (diff : SetDiff) (w : W) : Outcome W unit :=
  let added := issues_addLabels pullNumber (adds diff) w in
  let w1 := match added with inr w' => w' | inl _ => w end in
  let w2 :=
    foldl (λ w0 label,
             match issues_removeLabel pullNumber label w0 with
             | inr w' => w'
             | inl _ => w0
             end) w1 (removes diff) in
  match added with
  | inr _ => Return () w2
  | inl e => Throw e w2
  end.

(** [public async copyLabelsFromReferencedIssues(pullNumber)] *)
Definition copyLabelsFromReferencedIssues (pullNumber : N) (w : W)
    : Outcome W unit :=
  match pulls_get pullNumber w with
  | inl e => Throw e w
  | inr pull =>
      let references := findReferencedIssues this (default [] (body pull)) in
      match allIssueLabels references w with
      | inl e => Throw e w
      | inr answers =>
          let diff := snd (reconcile this (default "" <$> labels pull) answers) in
          if isEmptyDiff diff then Return () w
          else applyDiff pullNumber diff w
      end
  end.

(** The loop of [doPulls] over the pull numbers still to process: an
    [await] that throws leaves the loop and the method. *)
Fixpoint doPulls_loop (pulls : list N) (w : W) : Outcome W unit :=
  match pulls with
  | [] => Return () w
  | pull :: rest =>
      match copyLabelsFromReferencedIssues pull w with
      | Return _ w' => doPulls_loop rest w'
      | Throw e w' => Throw e w'
      end
  end.

(** [public async doPulls()] *)
Definition doPulls (w : W) : Outcome W unit :=
  doPulls_loop (pullNumbers this) w.

End Async.

(** ** A repository held in memory

    A service on which every request takes effect at the moment it is
    started: a request about a pull request or an issue that does not exist
    is rejected with [NotFound]; adding a label that is present changes
    nothing; removing a label that is absent is rejected. *)

Record Repo := {
  repo_pulls : gmap N PullData;
  repo_issues : gmap N (list RawLabel)
}.

Definition repo_set_labels (n : N) (p : PullData) (ls : list (option string))
    (w : Repo) : Repo :=
  {| repo_pulls := <[n := {| body := body p; labels := ls |}]> (repo_pulls w);
     repo_issues := repo_issues w |}.

#[export] Instance memory_gateway : Gateway Repo := {|
  pulls_get n w :=
    match repo_pulls w !! n with Some p => inr p | None => inl (NotFound n) end;
  issues_get number w :=
    match number with
    | Finite n =>
        match repo_issues w !! n with
        | Some ls => inr ls
        | None => inl (NotFound n)
        end
    | _ => inl (NotAnIssueNumber number)
    end;
  issues_addLabels n ls w :=
    match repo_pulls w !! n with
    | Some p =>
        inr (repo_set_labels n p
               (foldl (λ acc l, if bool_decide (Some l ∈ acc) then acc
                                else acc ++ [Some l]) (labels p) ls) w)
    | None => inl (NotFound n)
    end;
  issues_removeLabel n l w :=
    match repo_pulls w !! n with
    | Some p =>
        if bool_decide (Some l ∈ labels p)
        then inr (repo_set_labels n p (filter (λ x, x ≠ Some l) (labels p)) w)
        else inl (NotFound n)
    | None => inl (NotFound n)
    end
|}.

(** The labels of a pull request of the repository, as names. *)
Definition labels_of (n : N) (w : Repo) : option (list string) :=
  (λ p, default "" <$> labels p) <$> repo_pulls w !! n.

(** ** A service that records the label requests

    The two label requests as data, and a gateway that answers the reads
    from a repository it never changes and keeps the label requests in the
    order they were started. It accepts every label request. *)

Inductive Request :=
| AddLabels (issue_number : N) (names : list string)
| RemoveLabel (issue_number : N) (name : string).

Record Recorded := {
  served : Repo;
  started : list Request
}.

#[export] Instance recording_gateway : Gateway Recorded := {|
  pulls_get n w := pulls_get n (served w);
  issues_get number w := issues_get number (served w);
  issues_addLabels n ls w :=
    inr {| served := served w; started := started w ++ [AddLabels n ls] |};
  issues_removeLabel n l w :=
    inr {| served := served w; started := started w ++ [RemoveLabel n l] |}
|}.

(** A request taking effect on the repository in memory; a rejected one
    changes nothing. *)
Definition takeEffect (r : Request) (w : Repo) : Repo :=
  match r with
  | AddLabels n ls =>
      match issues_addLabels n ls w with inr w' => w' | inl _ => w end
  | RemoveLabel n l =>
      match issues_removeLabel n l w with inr w' => w' | inl _ => w end
  end.

(** Requests taking effect one after the other. *)
Definition settle (rs : list Request) (w : Repo) : Repo :=
  foldl (λ w0 r, takeEffect r w0) w rs.

(** The label requests of lines 104-120 for a diff. *)
Definition labelRequests (pullNumber : N) (diff : SetDiff) : list Request :=
  if isEmptyDiff diff then []
  else AddLabels pullNumber (adds diff)
         :: (RemoveLabel pullNumber <$> removes diff).

(** * Properties *)

(** ** Vocabulary of the specification *)

(** [l] is the first entry of [candidates] that is a member of [present]. *)
Definition first_present (candidates present : list string) (l : string) : Prop :=
  ∃ before after,
    candidates = before ++ l :: after ∧ l ∈ present ∧
    ∀ x, x ∈ before → x ∉ present.

(** No entry of [candidates] is a member of [present]. *)
Definition none_present (candidates present : list string) : Prop :=
  ∀ x, x ∈ candidates → x ∉ present.

(** At most one member of [set] is an entry of [candidates]. *)
Definition at_most_one_of (candidates set : list string) : Prop :=
  ∀ a b, a ∈ set → a ∈ candidates → b ∈ set → b ∈ candidates → a = b.

(** Two sets have the same members. *)
Definition same_set (xs ys : list string) : Prop := ∀ l, l ∈ xs ↔ l ∈ ys.

(** The three candidate lists of a manager do not overlap. *)
Definition categories_disjoint (this : PullRequestLabelManager) : Prop :=
  Forall (λ l, l ∉ classificationLabels this) (priorityLabels this) ∧
  Forall (λ l, l ∉ effortLabels this) (priorityLabels this) ∧
  Forall (λ l, l ∉ effortLabels this) (classificationLabels this).

(** Every member of [set] that is an entry of [candidates] is [r]. *)
Definition only_of (candidates set : list string) (r : string) : Prop :=
  ∀ x, x ∈ set → x ∈ candidates → x = r.

(** The shape of both expressions: a word, fixed characters, a number. *)
Definition keyword_number (atoms : list RegExp.atom) : list RegExp.item :=
  RegExp.Plus RegExp.WordChar :: (RegExp.One <$> atoms)
    ++ [RegExp.Plus RegExp.DigitChar].

(** No digit follows. *)
Definition ends_number (post : list N) : Prop :=
  match post with
  | c :: _ => Text.isDigit c = false
  | [] => True
  end.

(** The fixed characters of the two expressions. *)
Definition hashAtoms : list RegExp.atom := [RegExp.Lit 32; RegExp.Lit 35].

Definition urlAtoms (this : PullRequestLabelManager) : list RegExp.atom :=
  RegExp.source_atom <$> urlMiddle this.








(** ** Managers and repositories of the examples *)

Definition defaultOptions : PullRequsetLabelManagerOptions :=
  {| opt_priorityLabels := None; opt_classificationLabels := None;
     opt_effortLabels := None; opt_pullNumbers := None |}.

(** The manager built from the default options in repository [octo/demo],
    triggered by pull request 1. *)
Definition defaultManager : PullRequestLabelManager :=
  {| owner := Text.of_string "octo"; repo := Text.of_string "demo";
     pullNumbers := [1];
     priorityLabels := ["p0"; "p1"; "p2"];
     classificationLabels := ["bug"; "feature-request"];
     effortLabels := ["effort/large"; "effort/medium"; "effort/small"] |}.

(** A manager whose candidate lists overlap: [p1] is a priority label and a
    classification label. *)
Definition overlappingManager : PullRequestLabelManager :=
  {| owner := Text.of_string "octo"; repo := Text.of_string "demo";
     pullNumbers := [1];
     priorityLabels := ["p0"; "p1"; "p2"];
     classificationLabels := ["bug"; "p1"];
     effortLabels := ["effort/large"; "effort/medium"; "effort/small"] |}.

(** The pull numbers supplied by the options, as the constructor reads them. *)
Definition suppliedPullNumbers (options : PullRequsetLabelManagerOptions) : list N :=
  default [] (opt_pullNumbers options).

(** A run over the pull requests 1 and 2 of a repository that has no pull
    request 1. Pull request 2 closes issue 5 and would get its [p0]. *)
Definition twoPullsManager : PullRequestLabelManager :=
  {| owner := Text.of_string "octo"; repo := Text.of_string "demo";
     pullNumbers := [1; 2];
     priorityLabels := ["p0"; "p1"; "p2"];
     classificationLabels := ["bug"; "feature-request"];
     effortLabels := ["effort/large"; "effort/medium"; "effort/small"] |}.

Definition repoWithoutPull1 : Repo :=
  {| repo_pulls :=
       {[ 2 := {| body := Some (Text.of_string "Fixes #5");
                  labels := [Some "p2"] |} ]};
     repo_issues := {[ 5 := [LabelObject (Some "p0")] ]} |}.

Definition scenarioRepo (description : string) : Repo :=
  {| repo_pulls :=
       {[ 1 := {| body := Some (Text.of_string description);
                  labels := [Some "p2"; Some "feature-request"] |} ]};
     repo_issues :=
       {[ 5 := [LabelObject (Some "p0"); LabelObject (Some "bug")];
          7 := [LabelObject (Some "effort/large")] ]} |}.

(** A repository whose pull request 2 closes an issue that does not exist. *)
Definition repoMissingIssue : Repo :=
  {| repo_pulls :=
       {[ 2 := {| body := Some (Text.of_string "Fixes #5");
                  labels := [Some "p2"] |} ]};
     repo_issues := ∅ |}.

(** Between [w] and [w'] nothing changed but the labels of pull requests
    listed in [pulls]: the issues are the same, the same pull requests exist
    with the same descriptions, and a pull request outside [pulls] is as it
    was. *)
Definition only_labels_changed (pulls : list N) (w w' : Repo) : Prop :=
  repo_issues w' = repo_issues w ∧
  (∀ m, body <$> repo_pulls w' !! m = body <$> repo_pulls w !! m) ∧
  (∀ m, m ∉ pulls → repo_pulls w' !! m = repo_pulls w !! m).

(** ** The array of pull numbers as an object

    [options.pullNumbers] is an array object. Lines 61-67 store that very
    array in the manager when it is not empty, a new empty array otherwise,
    and [push] the number of the triggering pull request onto the array the
    manager holds. A heap maps the address of an array to its elements;
    [pullNumbersObject] gives the address stored in [this.pullNumbers] and
    the heap after the constructor. *)
Definition pullNumbersObject (supplied : option nat) (context : Context)
    (heap : gmap nat (list N)) : nat * gmap nat (list N) :=
  let '(address, heap1) :=
    match supplied with
    | Some a =>
        if (0 <? length (heap !!! a))%nat then (a, heap)
        else (fresh (dom heap), <[fresh (dom heap) := []]> heap)
    | None => (fresh (dom heap), <[fresh (dom heap) := []]> heap)
    end in
  match ctx_pull_request context with
  | Some n => (address, <[address := heap1 !!! address ++ [n]]> heap1)
  | None => (address, heap1)
  end.

(** The options as values: the array read off the heap. *)
Definition optionsAt (priority classification effort : option (list string))
    (supplied : option nat) (heap : gmap nat (list N))
    : PullRequsetLabelManagerOptions :=
  {| opt_priorityLabels := priority;
     opt_classificationLabels := classification;
     opt_effortLabels := effort;
     opt_pullNumbers := (λ a, heap !!! a) <$> supplied |}.

(** ** Sets *)

Section SetFacts.

Implicit Types (s xs ys : list string) (x y l : string).

Lemma has_true s x : JsSet.has s x = true ↔ x ∈ s.
Proof. apply bool_decide_eq_true. Qed.

Lemma has_false s x : JsSet.has s x = false ↔ x ∉ s.
Proof. apply bool_decide_eq_false. Qed.

Lemma elem_of_add s x y : y ∈ JsSet.add s x ↔ y ∈ s ∨ y = x.
Proof.
  unfold JsSet.add. destruct (JsSet.has s x) eqn:E.
  - apply has_true in E. split; [auto | intros [?| ->]; done].
  - rewrite elem_of_app, list_elem_of_singleton. done.
Qed.

Lemma elem_of_delete s x y : y ∈ JsSet.delete s x ↔ y ∈ s ∧ y ≠ x.
Proof. unfold JsSet.delete. rewrite list_elem_of_filter. tauto. Qed.

Lemma elem_of_delete_all s rs y :
  y ∈ foldl JsSet.delete s rs ↔ y ∈ s ∧ y ∉ rs.
Proof.
  revert s. induction rs as [|r rs IH]; intros s; simpl.
  - split; [intros ?; split; [done | apply not_elem_of_nil] | tauto].
  - rewrite IH, elem_of_delete, not_elem_of_cons. tauto.
Qed.

Lemma NoDup_add s x : NoDup s → NoDup (JsSet.add s x).
Proof.
  intros Hs. unfold JsSet.add. destruct (JsSet.has s x) eqn:E; [done|].
  apply has_false in E. apply NoDup_app. repeat split; try done.
  - intros y Hy Hx. apply list_elem_of_singleton in Hx. by subst.
  - apply NoDup_singleton.
Qed.

Lemma NoDup_delete_all s rs : NoDup s → NoDup (foldl JsSet.delete s rs).
Proof.
  revert s. induction rs as [|r rs IH]; intros s Hs; simpl; [done|].
  apply IH. by apply NoDup_filter.
Qed.

Lemma NoDup_of_array_from s xs : NoDup s → NoDup (foldl JsSet.add s xs).
Proof.
  revert s. induction xs as [|x xs IH]; intros s Hs; simpl; [done|].
  apply IH. by apply NoDup_add.
Qed.

Lemma NoDup_of_array xs : NoDup (JsSet.of_array xs).
Proof. apply NoDup_of_array_from, NoDup_nil_2. Qed.

Lemma elem_of_of_array_from s xs y :
  y ∈ foldl JsSet.add s xs ↔ y ∈ s ∨ y ∈ xs.
Proof.
  revert s. induction xs as [|x xs IH]; intros s; simpl.
  - split; [auto | intros [?|H]; [done | by apply elem_of_nil in H]].
  - rewrite IH, elem_of_add, elem_of_cons. tauto.
Qed.

Lemma elem_of_of_array xs y : y ∈ JsSet.of_array xs ↔ y ∈ xs.
Proof.
  unfold JsSet.of_array. rewrite elem_of_of_array_from.
  split; [intros [H|?]; [by apply elem_of_nil in H | done] | auto].
Qed.

(** [Array.prototype.find] *)
Lemma find_Some_first (f : string → bool) (cs : list string) l :
  List.find f cs = Some l →
  ∃ before after, cs = before ++ l :: after ∧ f l = true ∧
                  ∀ x, x ∈ before → f x = false.
Proof.
  induction cs as [|c cs IH]; simpl; [done|].
  destruct (f c) eqn:E.
  - intros [= ->]. exists [], cs. repeat split; [done|].
    intros x Hx. by apply elem_of_nil in Hx.
  - intros Hf. destruct (IH Hf) as (b & a & -> & Hl & Hb).
    exists (c :: b), a. repeat split; [done|].
    intros x [->|Hx]%elem_of_cons; auto.
Qed.

Lemma find_None_all (f : string → bool) (cs : list string) :
  List.find f cs = None ↔ ∀ x, x ∈ cs → f x = false.
Proof.
  induction cs as [|c cs IH]; simpl.
  - split; [intros _ x Hx; by apply elem_of_nil in Hx | done].
  - destruct (f c) eqn:E.
    + split; [done|]. intros Hall.
      specialize (Hall c (list_elem_of_here _ _)). congruence.
    + rewrite IH. split.
      * intros Hall x [->|Hx]%elem_of_cons; auto.
      * intros Hall x Hx. apply Hall. by apply list_elem_of_further.
Qed.

Lemma find_has_first cs s l :
  List.find (JsSet.has s) cs = Some l → first_present cs s l.
Proof.
  intros (b & a & -> & Hl & Hb)%find_Some_first.
  exists b, a. repeat split; [by apply has_true|].
  intros x Hx. apply has_false. auto.
Qed.

Lemma find_has_none cs s :
  List.find (JsSet.has s) cs = None ↔ none_present cs s.
Proof.
  rewrite find_None_all. unfold none_present.
  split; intros Hall x Hx; apply has_false || apply (proj1 (has_false s x)); auto.
Qed.

Lemma first_present_elem cs s l : first_present cs s l → l ∈ cs ∧ l ∈ s.
Proof.
  intros (b & a & -> & Hl & _). split; [|done].
  rewrite elem_of_app, elem_of_cons. auto.
Qed.

Lemma find_has_elem cs s l :
  List.find (JsSet.has s) cs = Some l → l ∈ cs ∧ l ∈ s.
Proof. intros ?%find_has_first. by apply first_present_elem. Qed.

End SetFacts.

(** ** Priority resolution *)

Lemma last_index_lookup (cs : list string) :
  cs !! (length cs - 1)%nat = last cs.
Proof. by rewrite last_lookup, Nat.sub_1_r. Qed.

Lemma last_is_Some (cs : list string) : cs ≠ [] → ∃ l, last cs = Some l ∧ l ∈ cs.
Proof.
  intros Hne. destruct (last cs) as [l|] eqn:E.
  - exists l. split; [done|]. by apply last_Some_elem_of.
  - by apply last_None in E.
Qed.

(** C1. For a non-empty priority list, [highestPriorityLabel] returns a label
    of that list, found in three stages: the first entry of the list that is
    in the union of the issues' labels; when the union has none, the first
    entry that is among the pull request's own labels; when neither has one,
    the last entry of the list. *)
Theorem highestPriorityLabel_three_stage (this : PullRequestLabelManager)
    (issueLabels pullLabels : list string) :
  priorityLabels this ≠ [] →
  ∃ l, highestPriorityLabel this issueLabels pullLabels = Some l ∧
       l ∈ priorityLabels this ∧
       (first_present (priorityLabels this) issueLabels l ∨
        (none_present (priorityLabels this) issueLabels ∧
         first_present (priorityLabels this) pullLabels l) ∨
        (none_present (priorityLabels this) issueLabels ∧
         none_present (priorityLabels this) pullLabels ∧
         last (priorityLabels this) = Some l)).
Proof.
  intros Hne. unfold highestPriorityLabel.
  destruct (List.find (JsSet.has issueLabels) _) as [l|] eqn:Ei.
  { exists l. split; [done|]. split; [apply (find_has_elem _ _ _ Ei)|].
    left. by apply find_has_first. }
  apply find_has_none in Ei.
  destruct (List.find (JsSet.has pullLabels) _) as [l|] eqn:Ep.
  { exists l. split; [done|]. split; [apply (find_has_elem _ _ _ Ep)|].
    right; left. split; [done|]. by apply find_has_first. }
  apply find_has_none in Ep.
  destruct (last_is_Some _ Hne) as (l & Hl & Hin).
  exists l. rewrite last_index_lookup. auto 10.
Qed.

Lemma defaultManager_constructed :
  constructor "token" defaultOptions
    {| ctx_repo := Some (Text.of_string "octo", Text.of_string "demo");
       ctx_pull_request := Some 1 |} = inr defaultManager.
Proof. reflexivity. Qed.

Lemma highestPriorityLabel_three_stage_witness :
  priorityLabels defaultManager ≠ [] ∧
  ∃ l, highestPriorityLabel defaultManager ["bug"] ["p1"; "bug"] = Some l ∧
       l ∈ priorityLabels defaultManager ∧
       (first_present (priorityLabels defaultManager) ["bug"] l ∨
        (none_present (priorityLabels defaultManager) ["bug"] ∧
         first_present (priorityLabels defaultManager) ["p1"; "bug"] l) ∨
        (none_present (priorityLabels defaultManager) ["bug"] ∧
         none_present (priorityLabels defaultManager) ["p1"; "bug"] ∧
         last (priorityLabels defaultManager) = Some l)).
Proof.
  split; [discriminate|].
  apply (highestPriorityLabel_three_stage defaultManager ["bug"] ["p1"; "bug"]).
  discriminate.
Defined.

Lemma overlappingManager_constructed :
  constructor "token"
    {| opt_priorityLabels := None;
       opt_classificationLabels := Some ["bug"; "p1"];
       opt_effortLabels := None; opt_pullNumbers := None |}
    {| ctx_repo := Some (Text.of_string "octo", Text.of_string "demo");
       ctx_pull_request := Some 1 |} = inr overlappingManager.
Proof. reflexivity. Qed.

(** The two examples of the specification. *)
Example highestPriorityLabel_no_match :
  highestPriorityLabel defaultManager ["bug"] ["feature-request"] = Some "p2".
Proof. reflexivity. Qed.

Example highestPriorityLabel_keeps_own :
  highestPriorityLabel defaultManager ["bug"] ["p1"] = Some "p1".
Proof. reflexivity. Qed.

(** ** [replaceLabels] *)

Lemma elem_of_replaceLabels_Some (labels remove : list string) (r x : string) :
  x ∈ replaceLabels labels remove (Some r) ↔
  x = r ∨ (x ∈ labels ∧ x ∉ remove).
Proof. simpl. rewrite elem_of_add, elem_of_delete_all. tauto. Qed.

Lemma NoDup_replaceLabels (labels remove : list string) (replace : option string) :
  NoDup labels → NoDup (replaceLabels labels remove replace).
Proof.
  intros Hl. destruct replace as [r|]; simpl; [|done].
  by apply NoDup_add, NoDup_delete_all.
Qed.

(** C3. With a resolved label, the set after [replaceLabels] holds the
    resolved label and, of the labels it held before, exactly those outside
    the category's candidate list: every candidate present before is gone,
    however many there were, unless it is the resolved label itself. Without
    a resolved label the set is unchanged. *)
Theorem replaceLabels_spec (labels remove : list string) :
  (∀ r, r ∈ replaceLabels labels remove (Some r) ∧
        (∀ x, x ∈ remove → x ≠ r → x ∉ replaceLabels labels remove (Some r)) ∧
        (∀ x, x ∈ replaceLabels labels remove (Some r) ↔
              x = r ∨ (x ∈ labels ∧ x ∉ remove))) ∧
  replaceLabels labels remove None = labels.
Proof.
  split; [|done]. intros r. split; [|split].
  - apply elem_of_replaceLabels_Some. by left.
  - intros x Hx Hne [?|[_ ?]]%elem_of_replaceLabels_Some; done.
  - intros x. apply elem_of_replaceLabels_Some.
Qed.

Lemma replaceLabels_spec_witness :
  "p0" ∉ replaceLabels ["p0"; "x"; "p1"] ["p0"; "p1"; "p2"] (Some "p1").
Proof.
  destruct (replaceLabels_spec ["p0"; "x"; "p1"] ["p0"; "p1"; "p2"]) as [H _].
  destruct (H "p1") as (_ & Hgone & _).
  apply Hgone; [|discriminate]. apply (bool_decide_unpack _). vm_compute. exact I.
Defined.

(** The example of the specification: both [p0] and [p1] on the pull request. *)
Example replaceLabels_two_priorities :
  replaceLabels ["p0"; "x"; "p1"] ["p0"; "p1"; "p2"] (Some "p1") = ["x"; "p1"].
Proof. reflexivity. Qed.

(** ** [setDiff] and [isEmptyDiff] *)

Lemma elem_of_bool_filter (f : string → bool) (xs : list string) (x : string) :
  x ∈ List.filter f xs ↔ x ∈ xs ∧ f x = true.
Proof. rewrite !list_elem_of_In. apply filter_In. Qed.

Lemma elem_of_adds (xs ys : list string) l :
  l ∈ adds (setDiff xs ys) ↔ l ∈ ys ∧ l ∉ xs.
Proof.
  simpl. rewrite elem_of_bool_filter, negb_true_iff, has_false. done.
Qed.

Lemma elem_of_removes (xs ys : list string) l :
  l ∈ removes (setDiff xs ys) ↔ l ∈ xs ∧ l ∉ ys.
Proof.
  simpl. rewrite elem_of_bool_filter, negb_true_iff, has_false. done.
Qed.

Lemma nil_iff_no_elem (xs : list string) : xs = [] ↔ ∀ l, l ∉ xs.
Proof.
  split; [intros -> l; apply not_elem_of_nil|].
  destruct xs as [|x xs]; [done|]. intros H.
  destruct (H x). apply list_elem_of_here.
Qed.

Lemma isEmptyDiff_true (d : SetDiff) :
  isEmptyDiff d = true ↔ adds d = [] ∧ removes d = [].
Proof.
  unfold isEmptyDiff. rewrite Nat.eqb_eq.
  destruct (adds d), (removes d); simpl; split; intros; try done; try lia.
  all: by destruct H.
Qed.

Lemma isEmptyDiff_same_set (xs ys : list string) :
  isEmptyDiff (setDiff xs ys) = true ↔ same_set xs ys.
Proof.
  rewrite isEmptyDiff_true, !nil_iff_no_elem. unfold same_set. split.
  - intros [Ha Hr] l. specialize (Ha l). specialize (Hr l).
    rewrite elem_of_adds in Ha. rewrite elem_of_removes in Hr.
    destruct (decide (l ∈ xs)), (decide (l ∈ ys)); tauto.
  - intros Hs. split; intros l.
    + rewrite elem_of_adds, Hs. tauto.
    + rewrite elem_of_removes, Hs. tauto.
Qed.

(** C4. [adds] holds exactly the labels of the new set that the original set
    lacks, [removes] exactly the labels of the original set that the new set
    lacks; no label is in both; and the diff is empty exactly when the two
    sets have the same members. *)
Theorem setDiff_spec (xs ys : list string) :
  (∀ l, l ∈ adds (setDiff xs ys) ↔ l ∈ ys ∧ l ∉ xs) ∧
  (∀ l, l ∈ removes (setDiff xs ys) ↔ l ∈ xs ∧ l ∉ ys) ∧
  (∀ l, ¬ (l ∈ adds (setDiff xs ys) ∧ l ∈ removes (setDiff xs ys))) ∧
  (isEmptyDiff (setDiff xs ys) = true ↔ same_set xs ys).
Proof.
  split; [apply elem_of_adds|]. split; [apply elem_of_removes|].
  split; [|apply isEmptyDiff_same_set].
  intros l [[_ Hx]%elem_of_adds [Hx' _]%elem_of_removes]. done.
Qed.

(** ** The three categories together *)

Section Categories.

Variable this : PullRequestLabelManager.
Hypothesis Hdisjoint : categories_disjoint this.

Lemma priority_not_classification l :
  l ∈ priorityLabels this → l ∉ classificationLabels this.
Proof.
  destruct Hdisjoint as (H & _ & _). rewrite Forall_forall in H. apply H.
Qed.

Lemma priority_not_effort l :
  l ∈ priorityLabels this → l ∉ effortLabels this.
Proof.
  destruct Hdisjoint as (_ & H & _). rewrite Forall_forall in H. apply H.
Qed.

Lemma classification_not_effort l :
  l ∈ classificationLabels this → l ∉ effortLabels this.
Proof.
  destruct Hdisjoint as (_ & _ & H). rewrite Forall_forall in H. apply H.
Qed.

End Categories.

Lemma elem_of_replaceLabels (labels remove : list string) (o : option string) x :
  x ∈ replaceLabels labels remove o ↔
  match o with
  | Some r => x = r ∨ (x ∈ labels ∧ x ∉ remove)
  | None => x ∈ labels
  end.
Proof. destruct o; [apply elem_of_replaceLabels_Some | done]. Qed.

Lemma only_of_at_most_one cands set r : only_of cands set r → at_most_one_of cands set.
Proof. intros Ho a b Ha Hac Hb Hbc. by rewrite (Ho a), (Ho b). Qed.

Lemma only_of_replaced labels remove r :
  only_of remove (replaceLabels labels remove (Some r)) r.
Proof. intros x [?|[_ ?]]%elem_of_replaceLabels_Some ?; done. Qed.

Lemma only_of_replace_other cands labels remove o r0 :
  only_of cands labels r0 →
  (∀ r, o = Some r → r ∉ cands) →
  only_of cands (replaceLabels labels remove o) r0.
Proof.
  intros Ho Hr x Hx Hc. apply elem_of_replaceLabels in Hx.
  destruct o as [r|]; [|by apply Ho].
  destruct Hx as [->|[Hx _]]; [|by apply Ho].
  by destruct (Hr r eq_refl).
Qed.

Lemma highestPriorityLabel_elem this issueLabels pullLabels p :
  highestPriorityLabel this issueLabels pullLabels = Some p →
  p ∈ priorityLabels this.
Proof.
  unfold highestPriorityLabel.
  destruct (List.find (JsSet.has issueLabels) _) as [l|] eqn:Ei.
  { intros [= <-]. apply (find_has_elem _ _ _ Ei). }
  destruct (List.find (JsSet.has pullLabels) _) as [l|] eqn:Ep.
  { intros [= <-]. apply (find_has_elem _ _ _ Ep). }
  rewrite last_index_lookup. apply last_Some_elem_of.
Qed.

Lemma highestPriorityLabel_None this issueLabels pullLabels :
  highestPriorityLabel this issueLabels pullLabels = None →
  priorityLabels this = [].
Proof.
  unfold highestPriorityLabel.
  destruct (List.find (JsSet.has issueLabels) _); [done|].
  destruct (List.find (JsSet.has pullLabels) _); [done|].
  rewrite last_index_lookup. apply last_None.
Qed.

(** What the set computed by [newPullLabels] holds of each category that
    was resolved. *)
Lemma newPullLabels_resolved this pullLabels issueLabels :
  categories_disjoint this →
  let final := newPullLabels this pullLabels issueLabels in
  (∀ p, highestPriorityLabel this issueLabels pullLabels = Some p →
        p ∈ final ∧ only_of (priorityLabels this) final p) ∧
  (∀ c, classification this issueLabels = Some c →
        c ∈ final ∧ only_of (classificationLabels this) final c) ∧
  (∀ e, largestEffort this issueLabels = Some e →
        e ∈ final ∧ only_of (effortLabels this) final e).
Proof.
  intros Hd final. subst final. unfold newPullLabels.
  assert (Hc : ∀ c, classification this issueLabels = Some c →
                    c ∈ classificationLabels this)
    by (intros c Hc; apply (find_has_elem _ _ _ Hc)).
  assert (He : ∀ e, largestEffort this issueLabels = Some e →
                    e ∈ effortLabels this)
    by (intros e He; apply (find_has_elem _ _ _ He)).
  split; [|split].
  - intros p Hp. rewrite Hp.
    pose proof (highestPriorityLabel_elem _ _ _ _ Hp) as HpP. split.
    + assert (Hin : p ∈ replaceLabels pullLabels (priorityLabels this) (Some p))
        by (apply elem_of_replaceLabels_Some; by left).
      assert (Hin2 : p ∈ replaceLabels
                (replaceLabels pullLabels (priorityLabels this) (Some p))
                (classificationLabels this) (classification this issueLabels)).
      { apply elem_of_replaceLabels. destruct (classification _ _); [|done].
        right. split; [done|]. by apply priority_not_classification. }
      apply elem_of_replaceLabels.
      destruct (largestEffort this issueLabels); [|done].
      right. split; [done|]. by apply priority_not_effort.
    + apply only_of_replace_other; [apply only_of_replace_other|].
      * apply only_of_replaced.
      * intros c Hc' Hin. apply Hc in Hc'.
        by apply (priority_not_classification this Hd c).
      * intros e He' Hin. apply He in He'.
        by apply (priority_not_effort this Hd e).
  - intros c Hc'. rewrite Hc'. pose proof (Hc _ Hc') as HcC. split.
    + apply elem_of_replaceLabels. destruct (largestEffort this issueLabels).
      * right. split; [apply elem_of_replaceLabels_Some; by left|].
        by apply classification_not_effort.
      * apply elem_of_replaceLabels_Some; by left.
    + apply only_of_replace_other; [apply only_of_replaced|].
      intros e He' Hin. apply He in He'.
      by apply (classification_not_effort this Hd e).
  - intros e He'. rewrite He'. split.
    + apply elem_of_replaceLabels_Some; by left.
    + apply only_of_replaced.
Qed.

(** What it holds of a category that was not resolved: the labels the pull
    request had. *)
Lemma newPullLabels_unresolved this pullLabels issueLabels :
  categories_disjoint this →
  let final := newPullLabels this pullLabels issueLabels in
  (classification this issueLabels = None →
   ∀ l, l ∈ classificationLabels this → (l ∈ final ↔ l ∈ pullLabels)) ∧
  (largestEffort this issueLabels = None →
   ∀ l, l ∈ effortLabels this → (l ∈ final ↔ l ∈ pullLabels)).
Proof.
  intros Hd final. subst final. unfold newPullLabels. split.
  - intros Hc l Hl. rewrite Hc. rewrite !elem_of_replaceLabels.
    pose proof (classification_not_effort this Hd l Hl) as HlE.
    assert (HlP : l ∉ priorityLabels this)
      by (intros HlP; by apply (priority_not_classification this Hd l)).
    assert (H1 : l ∈ replaceLabels pullLabels (priorityLabels this)
                   (highestPriorityLabel this issueLabels pullLabels)
                 ↔ l ∈ pullLabels).
    { rewrite elem_of_replaceLabels.
      destruct (highestPriorityLabel _ _ _) as [p|] eqn:Hp; [|done].
      apply highestPriorityLabel_elem in Hp.
      split; [intros [->|[? _]]; done | auto]. }
    simpl. destruct (largestEffort this issueLabels) as [e|] eqn:He; [|done].
    apply find_has_elem in He as [He _].
    rewrite H1. split; [intros [->|[? _]]; done | auto].
  - intros He l Hl. rewrite He. simpl.
    assert (HlP : l ∉ priorityLabels this)
      by (intros HlP; by apply (priority_not_effort this Hd l)).
    assert (HlC : l ∉ classificationLabels this)
      by (intros HlC; by apply (classification_not_effort this Hd l)).
    rewrite !elem_of_replaceLabels.
    assert (H1 : l ∈ replaceLabels pullLabels (priorityLabels this)
                   (highestPriorityLabel this issueLabels pullLabels)
                 ↔ l ∈ pullLabels).
    { rewrite elem_of_replaceLabels.
      destruct (highestPriorityLabel _ _ _) as [p|] eqn:Hp; [|done].
      apply highestPriorityLabel_elem in Hp.
      split; [intros [->|[? _]]; done | auto]. }
    destruct (classification this issueLabels) as [c|] eqn:Hc; [|done].
    apply find_has_elem in Hc as [Hc _].
    rewrite H1. split; [intros [->|[? _]]; done | auto].
Qed.

(** The claim that the final set holds at most one label of every category
    fails for a category without a resolution: the referenced issues carry no
    classification label, and the pull request keeps both of its own. It
    fails as well when the lists overlap: the issues carry [p0] and [p1], the
    priority is [p0], and [p1] comes back as the classification. *)
Lemma category_may_keep_two_labels :
  (newPullLabels defaultManager ["bug"; "feature-request"] []
     = ["bug"; "feature-request"; "p2"] ∧
   ¬ at_most_one_of (classificationLabels defaultManager)
       (newPullLabels defaultManager ["bug"; "feature-request"] [])) ∧
  (newPullLabels overlappingManager [] ["p0"; "p1"] = ["p0"; "p1"] ∧
   ¬ at_most_one_of (priorityLabels overlappingManager)
       (newPullLabels overlappingManager [] ["p0"; "p1"])).
Proof.
  split; (split; [reflexivity|]); intros H.
  - assert (E : "bug" = "feature-request"); [|discriminate E].
    apply H; apply (bool_decide_unpack _); vm_compute; exact I.
  - assert (E : "p0" = "p1"); [|discriminate E].
    apply H; apply (bool_decide_unpack _); vm_compute; exact I.
Qed.

Lemma defaultManager_disjoint : categories_disjoint defaultManager.
Proof. apply (bool_decide_unpack _). vm_compute. exact I. Defined.

(** C6 (amended). When the three candidate lists do not overlap, the final
    label set holds at most one label of the priority list, and at most one
    label of the classification (effort) list whenever the issues' labels
    resolve that category; a category that is not resolved keeps exactly the
    labels of its list that the pull request had. *)
Theorem reconciled_at_most_one (this : PullRequestLabelManager)
    (pullLabels issueLabels : list string) :
  categories_disjoint this →
  let final := newPullLabels this pullLabels issueLabels in
  at_most_one_of (priorityLabels this) final ∧
  (is_Some (classification this issueLabels) →
   at_most_one_of (classificationLabels this) final) ∧
  (is_Some (largestEffort this issueLabels) →
   at_most_one_of (effortLabels this) final) ∧
  (classification this issueLabels = None →
   ∀ l, l ∈ classificationLabels this → (l ∈ final ↔ l ∈ pullLabels)) ∧
  (largestEffort this issueLabels = None →
   ∀ l, l ∈ effortLabels this → (l ∈ final ↔ l ∈ pullLabels)).
Proof.
  intros Hd final.
  destruct (newPullLabels_resolved this pullLabels issueLabels Hd)
    as (Hp & Hc & He).
  destruct (newPullLabels_unresolved this pullLabels issueLabels Hd)
    as (Hc' & He').
  split; [|split; [|split; [|split]]]; try done.
  - destruct (highestPriorityLabel this issueLabels pullLabels) as [p|] eqn:E.
    + eapply only_of_at_most_one. by apply Hp.
    + apply highestPriorityLabel_None in E. rewrite E.
      intros a b _ Ha. by apply elem_of_nil in Ha.
  - intros [c Ec]. eapply only_of_at_most_one. by apply Hc.
  - intros [e Ee]. eapply only_of_at_most_one. by apply He.
Qed.

Lemma reconciled_at_most_one_witness :
  categories_disjoint defaultManager ∧
  at_most_one_of (priorityLabels defaultManager)
    (newPullLabels defaultManager ["p0"; "p1"; "bug"; "feature-request"]
       ["effort/small"]) ∧
  at_most_one_of (effortLabels defaultManager)
    (newPullLabels defaultManager ["p0"; "p1"; "bug"; "feature-request"]
       ["effort/small"]).
Proof.
  split; [exact defaultManager_disjoint|].
  pose proof (reconciled_at_most_one defaultManager
                ["p0"; "p1"; "bug"; "feature-request"] ["effort/small"]
                defaultManager_disjoint) as (Hp & _ & He & _).
  split; [exact Hp|]. apply He. by eexists.
Defined.

(** ** Running the reconciliation twice *)

Lemma highestPriorityLabel_again this pullLabels issueLabels p :
  categories_disjoint this →
  highestPriorityLabel this issueLabels pullLabels = Some p →
  highestPriorityLabel this issueLabels
    (newPullLabels this pullLabels issueLabels) = Some p.
Proof.
  intros Hd Hp.
  destruct (newPullLabels_resolved this pullLabels issueLabels Hd) as (Hr & _ & _).
  destruct (Hr p Hp) as [Hin Honly].
  pose proof (highestPriorityLabel_elem _ _ _ _ Hp) as HpP.
  revert Hp. unfold highestPriorityLabel.
  destruct (List.find (JsSet.has issueLabels) _) as [l|] eqn:Ei; [done|].
  intros _.
  destruct (List.find (JsSet.has (newPullLabels this pullLabels issueLabels)) _)
    as [q|] eqn:Eq.
  - apply find_has_elem in Eq as [HqP Hq]. f_equal. by apply Honly.
  - apply find_has_none in Eq. by destruct (Eq p HpP).
Qed.

Lemma replaceLabels_stable (labels labels' remove : list string) o :
  same_set labels' labels →
  (∀ r, o = Some r → r ∈ labels ∧ only_of remove labels r) →
  same_set (replaceLabels labels' remove o) labels.
Proof.
  intros Hs Ho x. rewrite elem_of_replaceLabels.
  destruct o as [r|]; [|apply Hs].
  destruct (Ho r eq_refl) as [Hr Honly]. rewrite (Hs x). split.
  - intros [->|[? _]]; done.
  - intros Hx. destruct (decide (x ∈ remove)); [left; by apply Honly | by right].
Qed.

(** With a label in two candidate lists a second run changes the labels
    again: the first run keeps the priority [p1] of the pull request and then
    removes it as a classification label when it adds [bug]; the second run
    finds no priority label and adds the default [p2]. *)
Lemma second_run_differs_on_overlap :
  priorityLabels overlappingManager ≠ [] ∧
  newPullLabels overlappingManager ["p1"] ["bug"] = ["bug"] ∧
  newPullLabels overlappingManager
    (newPullLabels overlappingManager ["p1"] ["bug"]) ["bug"] = ["p2"; "bug"] ∧
  isEmptyDiff
    (setDiff (newPullLabels overlappingManager ["p1"] ["bug"])
       (newPullLabels overlappingManager
          (newPullLabels overlappingManager ["p1"] ["bug"]) ["bug"])) = false.
Proof. split; [discriminate|]. repeat split; reflexivity. Qed.

(** C10 (amended). With a non-empty priority list and candidate lists that do
    not overlap, applying the three replacements to their own result, with
    the same issue labels, gives a set with the same members, and the diff
    between the two is empty. *)
Theorem reconcile_idempotent (this : PullRequestLabelManager)
    (pullLabels issueLabels : list string) :
  priorityLabels this ≠ [] →
  categories_disjoint this →
  let once := newPullLabels this pullLabels issueLabels in
  let twice := newPullLabels this once issueLabels in
  same_set twice once ∧ isEmptyDiff (setDiff once twice) = true.
Proof.
  intros Hne Hd once twice.
  assert (Hs : same_set twice once).
  { destruct (newPullLabels_resolved this pullLabels issueLabels Hd)
      as (Hp & Hc & He). fold once in Hp, Hc, He.
    destruct (highestPriorityLabel this issueLabels pullLabels) as [p|] eqn:E;
      [|by apply highestPriorityLabel_None in E].
    subst twice. unfold newPullLabels at 1.
    pose proof (highestPriorityLabel_again this pullLabels issueLabels p Hd E)
      as Hagain.
    fold once in Hagain. rewrite Hagain.
    apply replaceLabels_stable; [apply replaceLabels_stable;
      [apply replaceLabels_stable|] |]; done. }
  split; [done|]. apply isEmptyDiff_same_set. intros l. symmetry. apply Hs.
Qed.

Lemma reconcile_idempotent_witness :
  priorityLabels defaultManager ≠ [] ∧
  categories_disjoint defaultManager ∧
  isEmptyDiff
    (setDiff
       (newPullLabels defaultManager ["p2"; "feature-request"] ["p0"; "bug"])
       (newPullLabels defaultManager
          (newPullLabels defaultManager ["p2"; "feature-request"] ["p0"; "bug"])
          ["p0"; "bug"])) = true.
Proof.
  split; [discriminate|]. split; [exact defaultManager_disjoint|].
  apply (reconcile_idempotent defaultManager ["p2"; "feature-request"]
           ["p0"; "bug"]); [discriminate | exact defaultManager_disjoint].
Defined.

(** ** Which pull requests are processed *)

(** A construction that returns: the token is not empty, the repository is
    known, and the fields are read off the options and the context. *)
Lemma constructor_inr token options context m :
  constructor token options context = inr m →
  token ≠ "" ∧
  ctx_repo context = Some (owner m, repo m) ∧
  priorityLabels m = default ["p0"; "p1"; "p2"] (opt_priorityLabels options) ∧
  classificationLabels m =
    default ["bug"; "feature-request"] (opt_classificationLabels options) ∧
  effortLabels m =
    default ["effort/large"; "effort/medium"; "effort/small"]
      (opt_effortLabels options) ∧
  pullNumbers m =
    suppliedPullNumbers options ++
    match ctx_pull_request context with Some n => [n] | None => [] end.
Proof.
  unfold constructor. destruct (String.eqb token "") eqn:Et; [done|].
  apply String.eqb_neq in Et.
  destruct (ctx_repo context) as [[o r]|]; [|done]. intros [= <-].
  repeat split; try done. simpl. unfold suppliedPullNumbers.
  destruct (opt_pullNumbers options) as [[|n ns]|], (ctx_pull_request context);
    simpl; by rewrite ?app_nil_r.
Qed.


(** C7. With the explicit list [[10; 11]] and a run triggered by pull request
    3, the manager is built with the pull numbers [[10; 11; 3]]: the number
    taken from the context is processed as well, after the explicit ones. *)
Theorem explicit_list_and_context_pull :
  ∃ m, constructor "token"
         {| opt_priorityLabels := None; opt_classificationLabels := None;
            opt_effortLabels := None; opt_pullNumbers := Some [10; 11] |}
         {| ctx_repo := Some (Text.of_string "octo", Text.of_string "demo");
            ctx_pull_request := Some 3 |} = inr m ∧
       pullNumbers m = [10; 11; 3].
Proof. eexists. split; reflexivity. Qed.

(** ** Construction and the priority list *)





(** ** [doPulls] and a reconciliation that throws *)

Section DoPulls.

Context {W : Type} `{Gateway W}.
Variable this : PullRequestLabelManager.

Lemma doPulls_loop_app (before after : list N) (w : W) :
  doPulls_loop this (before ++ after) w =
  match doPulls_loop this before w with
  | Return _ w' => doPulls_loop this after w'
  | Throw e w' => Throw e w'
  end.
Proof.
  revert w. induction before as [|pull before IH]; intros w; simpl; [done|].
  destruct (copyLabelsFromReferencedIssues this pull w); [apply IH | done].
Qed.

(** C8 (amended). When the reconciliation of one pull request throws,
    [doPulls] throws the same error and stops there: the pull requests
    listed before it have been reconciled, and the state it ends in is the
    one that reconciliation left, whatever pull requests are listed after
    it. *)
Theorem doPulls_stops_at_first_failure
    (before after : list N) (pull : N) (w w1 w2 : W) (e : Error) :
  pullNumbers this = before ++ pull :: after →
  doPulls_loop this before w = Return () w1 →
  copyLabelsFromReferencedIssues this pull w1 = Throw e w2 →
  doPulls this w = Throw e w2.
Proof.
  intros Hpulls Hbefore Hpull. unfold doPulls.
  rewrite Hpulls, doPulls_loop_app, Hbefore. simpl. by rewrite Hpull.
Qed.

End DoPulls.

Lemma twoPullsManager_constructed :
  constructor "token"
    {| opt_priorityLabels := None; opt_classificationLabels := None;
       opt_effortLabels := None; opt_pullNumbers := Some [1; 2] |}
    {| ctx_repo := Some (Text.of_string "octo", Text.of_string "demo");
       ctx_pull_request := None |} = inr twoPullsManager.
Proof. reflexivity. Qed.

(** The failure on pull request 1 ends [doPulls]: pull request 2 keeps [p2],
    although reconciling it on its own replaces [p2] by [p0]. *)
Lemma failure_aborts_remaining_pulls :
  doPulls twoPullsManager repoWithoutPull1
    = Throw (NotFound 1) repoWithoutPull1 ∧
  labels_of 2 (final_state (doPulls twoPullsManager repoWithoutPull1))
    = Some ["p2"] ∧
  labels_of 2
    (final_state
       (copyLabelsFromReferencedIssues twoPullsManager 2 repoWithoutPull1))
    = Some ["p0"].
Proof. repeat split; vm_compute; reflexivity. Qed.

Lemma doPulls_stops_at_first_failure_witness :
  doPulls twoPullsManager repoWithoutPull1 = Throw (NotFound 1) repoWithoutPull1.
Proof.
  apply (doPulls_stops_at_first_failure twoPullsManager [] [2] 1
           repoWithoutPull1 repoWithoutPull1 repoWithoutPull1 (NotFound 1));
    reflexivity.
Defined.

(** ** The scenario of the specification *)

(** In ["Fixes #5 and #7"] the word before [#7] is [and]: only issue 5 is
    referenced, [effort/large] is not copied, and the sets of the claim are
    not the ones computed. *)
Lemma scenario_misses_second_issue :
  findReferencedIssues defaultManager (Text.of_string "Fixes #5 and #7")
    = [Finite 5] ∧
  (labels_of 1
     (final_state (doPulls defaultManager (scenarioRepo "Fixes #5 and #7")))
   ≠ Some ["p0"; "bug"; "effort/large"]) ∧
  ("effort/large" ∉
     default []
       (labels_of 1
          (final_state
             (doPulls defaultManager (scenarioRepo "Fixes #5 and #7"))))) ∧
  (adds (snd (reconcile defaultManager ["p2"; "feature-request"] [["p0"; "bug"]]))
   ≠ ["p0"; "bug"; "effort/large"]).
Proof.
  split; [vm_compute; reflexivity|].
  split; [vm_compute; discriminate|].
  split; [|vm_compute; discriminate].
  apply (bool_decide_unpack _). vm_compute. exact I.
Qed.

(** C2 (amended). With the default candidate lists, a pull request whose
    description is ["Fixes #5 and #7"] and whose labels are [p2] and
    [feature-request] references issue 5 only; with [p0] and [bug] on issue
    5 its new labels are [p0] and [bug], the diff adds [p0] and [bug] and
    removes [p2] and [feature-request], and [doPulls] leaves the pull request
    with [p0] and [bug]. *)
Theorem scenario_end_to_end :
  findReferencedIssues defaultManager (Text.of_string "Fixes #5 and #7")
    = [Finite 5] ∧
  reconcile defaultManager ["p2"; "feature-request"] [["p0"; "bug"]]
    = (["p0"; "bug"],
       {| adds := ["p0"; "bug"]; removes := ["p2"; "feature-request"] |}) ∧
  (∃ w, doPulls defaultManager (scenarioRepo "Fixes #5 and #7") = Return () w ∧
        labels_of 1 w = Some ["p0"; "bug"] ∧
        repo_issues w = repo_issues (scenarioRepo "Fixes #5 and #7")).
Proof.
  split; [vm_compute; reflexivity|]. split; [vm_compute; reflexivity|].
  eexists. split; [vm_compute; reflexivity|].
  split; vm_compute; reflexivity.
Qed.

(** With a closing keyword before each reference the result is the one the
    specification expects. *)
Example scenario_with_two_keywords :
  findReferencedIssues defaultManager (Text.of_string "Fixes #5 and fixes #7")
    = [Finite 5; Finite 7] ∧
  reconcile defaultManager ["p2"; "feature-request"]
      [["p0"; "bug"]; ["effort/large"]]
    = (["p0"; "bug"; "effort/large"],
       {| adds := ["p0"; "bug"; "effort/large"];
          removes := ["p2"; "feature-request"] |}) ∧
  labels_of 1
    (final_state
       (doPulls defaultManager (scenarioRepo "Fixes #5 and fixes #7")))
    = Some ["p0"; "bug"; "effort/large"].
Proof. repeat split; vm_compute; reflexivity. Qed.

(** ** The regular expressions *)

Section RegExpFacts.

Import RegExp.

Lemma longest_first_Some {B} (f : nat → option B) k r :
longest_first f k = Some r → ∃ j, (0 < j ≤ k)%nat ∧ f j = Some r.
Proof.
induction k as [|k IH]; simpl; [done|].
destruct (f (S k)) eqn:E.
- intros [= <-]. exists (S k). split; [lia | done].
- intros (j & ? & ?)%IH. exists j. split; [lia | done].
Qed.

Lemma longest_first_None {B} (f : nat → option B) k :
(∀ j, (0 < j ≤ k)%nat → f j = None) → longest_first f k = None.
Proof.
induction k as [|k IH]; simpl; [done|]. intros Hf.
rewrite (Hf (S k)) by lia. apply IH. intros j ?. apply Hf. lia.
Qed.

Lemma longest_first_top {B} (f : nat → option B) k :
(∀ j, (0 < j < k)%nat → f j = None) →
longest_first f k = match k with O => None | S _ => f k end.
Proof.
destruct k as [|k]; simpl; [done|]. intros Hf.
destruct (f (S k)); [done|]. apply longest_first_None.
intros j ?. apply Hf. lia.
Qed.

Lemma run_le a s : (run a s ≤ length s)%nat.
Proof.
induction s as [|c s IH]; simpl; [done|]. destruct (matches a c); simpl; lia.
Qed.

Lemma run_take a s j :
(j ≤ run a s)%nat → Forall (λ c, matches a c = true) (take j s).
Proof.
revert j. induction s as [|c s IH]; intros j; simpl.
- intros ?. by rewrite take_nil.
- destruct j as [|j]; [intros _; apply Forall_nil_2|].
  destruct (matches a c) eqn:E; [|lia].
  intros ?. simpl. apply Forall_cons. split; [done|]. apply IH. lia.
Qed.

Lemma run_inside a s j :
(j < run a s)%nat → ∃ c rest, drop j s = c :: rest ∧ matches a c = true.
Proof.
revert j. induction s as [|c s IH]; intros j; simpl; [lia|].
destruct (matches a c) eqn:E; [|lia].
destruct j as [|j]; simpl; [by eauto|]. intros ?. apply IH. lia.
Qed.

Lemma run_stops a s : ∀ c rest, drop (run a s) s = c :: rest → matches a c = false.
Proof.
induction s as [|c s IH]; simpl; [done|].
destruct (matches a c) eqn:E; simpl; [done|]. by intros ? ? [= <- _].
Qed.

Lemma exec_ones atoms q s caps rest :
exec ((One <$> atoms) ++ q) s = Some (caps, rest) →
∃ mid s', s = mid ++ s' ∧
          Forall2 (λ a c, matches a c = true) atoms mid ∧
          exec q s' = Some (caps, rest).
Proof.
revert s. induction atoms as [|a atoms IH]; intros s; simpl.
- intros Hq. exists [], s. by repeat split.
- destruct s as [|c s]; [done|]. destruct (matches a c) eqn:E; [|done].
  intros (mid & s' & -> & Hmid & Hq)%IH.
  exists (c :: mid), s'. repeat split; [by apply Forall2_cons | done].
Qed.

Lemma exec_last_plus a s caps rest :
exec [Plus a] s = Some (caps, rest) →
run a s ≠ O ∧ caps = [take (run a s) s] ∧ rest = drop (run a s) s.
Proof.
simpl. destruct (run a s) as [|k] eqn:E; simpl; [done|].
by intros [= <- <-].
Qed.

(** A match of an expression of this shape, read off the text. *)
Lemma exec_keyword_number atoms s caps rest :
exec (keyword_number atoms) s = Some (caps, rest) →
∃ kw mid ds,
  s = kw ++ mid ++ ds ++ rest ∧ caps = [kw; ds] ∧
  kw ≠ [] ∧ Forall (λ c, Text.isWord c = true) kw ∧
  Forall2 (λ a c, matches a c = true) atoms mid ∧
  ds ≠ [] ∧ Forall (λ c, Text.isDigit c = true) ds ∧
  ends_number rest.
Proof.
unfold keyword_number. simpl.
intros (j & Hj & Hf)%longest_first_Some.
destruct (exec _ (drop j s)) as [[caps' rest']|] eqn:E; [|done].
injection Hf as <- <-.
apply exec_ones in E as (mid & s' & Hs & Hmid & Hlast).
apply exec_last_plus in Hlast as (Hk & -> & ->).
exists (take j s), mid, (take (run DigitChar s') s').
pose proof (run_le WordChar s). pose proof (run_le DigitChar s').
repeat split.
- by rewrite take_drop, <- Hs, take_drop.
- intros Hnil%(f_equal length). rewrite length_take in Hnil. simpl in Hnil. lia.
- apply (run_take WordChar). lia.
- done.
- intros Hnil%(f_equal length). rewrite length_take in Hnil. simpl in Hnil. lia.
- by apply (run_take DigitChar).
- unfold ends_number.
  destruct (drop (run DigitChar s') s') as [|c r] eqn:Ed; [done|].
  by apply (run_stops DigitChar s' c r).
Qed.

(** The text of a match ends with a digit. *)
Lemma exec_keyword_number_end atoms s caps rest :
exec (keyword_number atoms) s = Some (caps, rest) →
∃ consumed c, s = consumed ++ rest ∧ last consumed = Some c ∧
              Text.isDigit c = true.
Proof.
intros (kw & mid & ds & -> & _ & _ & _ & _ & Hds & Hdigits & _)%exec_keyword_number.
destruct (last ds) as [c|] eqn:El; [|by apply last_None in El].
exists (kw ++ mid ++ ds), c. repeat split.
- by rewrite <- !app_assoc.
- rewrite !last_app, El. done.
- rewrite Forall_forall in Hdigits. apply Hdigits. by apply last_Some_elem_of.
Qed.

(** After the word comes a space: the group keeps the whole run of word
  characters, a shorter one is followed by a word character. *)
Lemma exec_word_then_space atoms s :
exec (keyword_number (Lit 32 :: atoms)) s =
match run WordChar s with
| O => None
| S _ =>
    match exec (One (Lit 32) :: (One <$> atoms) ++ [Plus DigitChar])
            (drop (run WordChar s) s) with
    | Some (caps, rest) => Some (take (run WordChar s) s :: caps, rest)
    | None => None
    end
end.
Proof.
unfold keyword_number. cbn [fmap list_fmap app exec].
rewrite longest_first_top; [done|].
intros j Hj. destruct (run_inside WordChar s j) as (c & r & -> & Hc); [lia|].
destruct (matches (Lit 32) c) eqn:E; [|done].
apply N.eqb_eq in E. subst c. discriminate Hc.
Qed.


End RegExpFacts.

Section Scan.

Import RegExp.

Variable atoms : list atom.
Local Abbreviation fixed := (Lit 32 :: atoms).
Local Abbreviation p := (keyword_number (Lit 32 :: atoms)).






End Scan.

(** ** [findReferencedIssues] *)

Lemma hashRegex_shape : hashRegex = keyword_number hashAtoms.
Proof. reflexivity. Qed.

Lemma urlRegex_shape this : urlRegex this = keyword_number (urlAtoms this).
Proof. reflexivity. Qed.

Lemma urlAtoms_space this :
  ∃ tail, urlAtoms this = RegExp.Lit 32 :: RegExp.Lit 104 :: tail.
Proof. eexists. reflexivity. Qed.









(** The examples of the specification. *)
Example findReferencedIssues_fixes :
  findReferencedIssues defaultManager (Text.of_string "Fixes #12") = [Finite 12].
Proof. vm_compute. reflexivity. Qed.

Example findReferencedIssues_mentions :
  findReferencedIssues defaultManager (Text.of_string "Mentions #12") = [].
Proof. vm_compute. reflexivity. Qed.

Example findReferencedIssues_empty :
  findReferencedIssues defaultManager [] = [].
Proof. vm_compute. reflexivity. Qed.

(** A keyword that ends a longer word does not count. *)
Example findReferencedIssues_inside_word :
  findReferencedIssues defaultManager (Text.of_string "prefix #3 FIXED #4")
    = [Finite 4].
Proof. vm_compute. reflexivity. Qed.

(** A number too large for a double is rounded, and beyond the largest
    double it is [Infinity]. *)
Example findReferencedIssues_rounds :
  findReferencedIssues defaultManager
    (Text.of_string "fixes #9007199254740993") = [Finite 9007199254740992] ∧
  findReferencedIssues defaultManager
    (Text.of_string "fixes #1" ++ replicate 400 48) = [Infinity].
Proof. split; vm_compute; reflexivity. Qed.

(** * Further properties of the module *)

(** ** Resolution and the order of the issue labels *)

Lemma has_same_set (s s' : list string) x :
  same_set s s' → JsSet.has s x = JsSet.has s' x.
Proof.
  intros Hs. destruct (JsSet.has s' x) eqn:E.
  - apply has_true. apply Hs. by apply has_true.
  - apply has_false. intros Hx. apply has_false in E. apply E. by apply Hs.
Qed.

Lemma find_ext (f g : string → bool) (cs : list string) :
  (∀ x, f x = g x) → List.find f cs = List.find g cs.
Proof.
  intros Hfg. induction cs as [|c cs IH]; simpl; [done|].
  rewrite Hfg. by rewrite IH.
Qed.

Lemma newPullLabels_same_issues this pullLabels issueLabels issueLabels' :
  same_set issueLabels issueLabels' →
  newPullLabels this pullLabels issueLabels
    = newPullLabels this pullLabels issueLabels'.
Proof.
  intros Hs. unfold newPullLabels, highestPriorityLabel, classification,
    largestEffort.
  by rewrite !(find_ext (JsSet.has issueLabels) (JsSet.has issueLabels'))
    by (intros x; by apply has_same_set).
Qed.

(** X1. The result of a reconciliation depends on the labels of the
    referenced issues only through which labels occur among them: answers
    that hold the same labels, in another order or with repetitions, give the
    same new set and the same diff. *)
Theorem reconcile_order_irrelevant (this : PullRequestLabelManager)
    (names : list string) (answers answers' : list (list string)) :
  same_set (concat answers) (concat answers') →
  reconcile this names answers = reconcile this names answers'.
Proof.
  intros Hs. unfold reconcile.
  rewrite (newPullLabels_same_issues this _ (JsSet.of_array (concat answers))
             (JsSet.of_array (concat answers'))); [done|].
  intros l. rewrite !elem_of_of_array. apply Hs.
Qed.

Lemma reconcile_order_irrelevant_witness :
  reconcile defaultManager ["p2"] [["p0"; "bug"]; ["effort/large"]]
    = reconcile defaultManager ["p2"]
        [["effort/large"; "bug"]; ["bug"; "p0"; "p0"]].
Proof.
  apply reconcile_order_irrelevant.
  intros l. split; intros Hl;
    repeat (apply elem_of_cons in Hl as [->|Hl];
            [apply (bool_decide_unpack _); vm_compute; exact I|]);
    by apply elem_of_nil in Hl.
Defined.

(** ** [highestPriorityLabel] and the empty list *)

(** X2. [highestPriorityLabel] is [undefined] exactly when the priority list
    is empty, whatever the labels of the issues and of the pull request. *)
Theorem highestPriorityLabel_undefined_iff (this : PullRequestLabelManager)
    (issueLabels pullLabels : list string) :
  highestPriorityLabel this issueLabels pullLabels = None ↔
  priorityLabels this = [].
Proof.
  split; [apply highestPriorityLabel_None|].
  intros Hnil. unfold highestPriorityLabel. by rewrite Hnil.
Qed.

(** ** What a reconciliation can change *)

Lemma classification_elem this labels c :
  classification this labels = Some c → c ∈ classificationLabels this.
Proof. intros Hc. apply (find_has_elem _ _ _ Hc). Qed.

Lemma largestEffort_elem this labels e :
  largestEffort this labels = Some e → e ∈ effortLabels this.
Proof. intros He. apply (find_has_elem _ _ _ He). Qed.

Lemma replaceLabels_outside labels remove o l :
  l ∉ remove → (∀ r, o = Some r → r ∈ remove) →
  (l ∈ replaceLabels labels remove o ↔ l ∈ labels).
Proof.
  intros Hl Ho. rewrite elem_of_replaceLabels. destruct o as [r|]; [|done].
  specialize (Ho r eq_refl). split; [intros [->|[? _]]; done | auto].
Qed.

Lemma newPullLabels_outside this pullLabels issueLabels l :
  l ∉ priorityLabels this → l ∉ classificationLabels this →
  l ∉ effortLabels this →
  (l ∈ newPullLabels this pullLabels issueLabels ↔ l ∈ pullLabels).
Proof.
  intros HP HC HE. unfold newPullLabels.
  rewrite replaceLabels_outside;
    [|done | intros r; apply largestEffort_elem].
  rewrite replaceLabels_outside;
    [|done | intros r; apply classification_elem].
  apply replaceLabels_outside; [done|].
  intros r. apply highestPriorityLabel_elem.
Qed.

(** X3. A reconciliation adds and removes candidate labels only: every label
    of the diff is an entry of the priority, the classification or the effort
    list, and a label outside the three lists is in the new set exactly when
    the pull request had it. *)
Theorem reconcile_touches_candidates_only (this : PullRequestLabelManager)
    (names : list string) (answers : list (list string)) (l : string) :
  (l ∈ adds (snd (reconcile this names answers)) ∨
   l ∈ removes (snd (reconcile this names answers)) →
   l ∈ priorityLabels this ∨ l ∈ classificationLabels this ∨
   l ∈ effortLabels this) ∧
  (l ∉ priorityLabels this → l ∉ classificationLabels this →
   l ∉ effortLabels this →
   (l ∈ fst (reconcile this names answers) ↔ l ∈ names)).
Proof.
  unfold reconcile. cbn [fst snd]. split.
  - intros Hdiff.
    destruct (decide (l ∈ priorityLabels this)) as [|HP]; [by left|].
    destruct (decide (l ∈ classificationLabels this)) as [|HC];
      [by right; left|].
    destruct (decide (l ∈ effortLabels this)) as [|HE]; [by right; right|].
    pose proof (newPullLabels_outside this (JsSet.of_array names)
                  (JsSet.of_array (concat answers)) l HP HC HE) as Hsame.
    destruct Hdiff as [[? ?]%elem_of_adds | [? ?]%elem_of_removes]; tauto.
  - intros HP HC HE. rewrite newPullLabels_outside by done.
    apply elem_of_of_array.
Qed.

Lemma reconcile_touches_candidates_only_witness :
  "needs-review" ∈
    fst (reconcile defaultManager ["needs-review"; "p2"] [["p0"; "bug"]]).
Proof.
  destruct (reconcile_touches_candidates_only defaultManager
              ["needs-review"; "p2"] [["p0"; "bug"]] "needs-review")
    as [_ Hkeep].
  apply Hkeep; apply (bool_decide_unpack _); vm_compute; exact I.
Defined.

(** ** The diff as a patch *)

(** X4. The diff carries the original set onto the new one: a label is in the
    new set exactly when it is added, or was in the original set and is not
    removed. *)
Theorem setDiff_patch (xs ys : list string) (l : string) :
  l ∈ ys ↔
  l ∈ adds (setDiff xs ys) ∨ (l ∈ xs ∧ l ∉ removes (setDiff xs ys)).
Proof.
  rewrite elem_of_adds, elem_of_removes.
  destruct (decide (l ∈ xs)), (decide (l ∈ ys)); tauto.
Qed.

Lemma NoDup_bool_filter (f : string → bool) (xs : list string) :
  NoDup xs → NoDup (List.filter f xs).
Proof.
  induction 1 as [|x xs Hx Hxs IH]; simpl; [apply NoDup_nil_2|].
  destruct (f x); [|done]. apply NoDup_cons_2; [|done].
  intros [? _]%elem_of_bool_filter. done.
Qed.

Lemma NoDup_newPullLabels this pullLabels issueLabels :
  NoDup pullLabels → NoDup (newPullLabels this pullLabels issueLabels).
Proof. intros Hp. unfold newPullLabels. by do 3 apply NoDup_replaceLabels. Qed.

Lemma elem_of_option_list (o : option string) (l : string) :
  l ∈ option_list o ↔ o = Some l.
Proof.
  destruct o as [r|]; simpl.
  - rewrite list_elem_of_singleton. split; [by intros -> | by intros [= ->]].
  - split; [by intros ?%elem_of_nil | done].
Qed.

(** The labels the three categories resolve to. *)
Lemma adds_are_resolved this pullLabels issueLabels l :
  l ∈ adds (setDiff pullLabels (newPullLabels this pullLabels issueLabels)) →
  l ∈ option_list (highestPriorityLabel this issueLabels pullLabels)
      ++ option_list (classification this issueLabels)
      ++ option_list (largestEffort this issueLabels).
Proof.
  intros [Hnew Hold]%elem_of_adds. unfold newPullLabels in Hnew.
  rewrite !elem_of_app, !elem_of_option_list.
  apply elem_of_replaceLabels in Hnew.
  destruct (largestEffort this issueLabels) as [e|].
  { destruct Hnew as [->|[Hnew _]]; [by right; right|].
    apply elem_of_replaceLabels in Hnew.
    destruct (classification this issueLabels) as [c|].
    - destruct Hnew as [->|[Hnew _]]; [by right; left|].
      apply elem_of_replaceLabels in Hnew.
      destruct (highestPriorityLabel this issueLabels pullLabels) as [p|];
        [destruct Hnew as [->|[? _]]; [by left | done] | done].
    - apply elem_of_replaceLabels in Hnew.
      destruct (highestPriorityLabel this issueLabels pullLabels) as [p|];
        [destruct Hnew as [->|[? _]]; [by left | done] | done]. }
  apply elem_of_replaceLabels in Hnew.
  destruct (classification this issueLabels) as [c|].
  - destruct Hnew as [->|[Hnew _]]; [by right; left|].
    apply elem_of_replaceLabels in Hnew.
    destruct (highestPriorityLabel this issueLabels pullLabels) as [p|];
      [destruct Hnew as [->|[? _]]; [by left | done] | done].
  - apply elem_of_replaceLabels in Hnew.
    destruct (highestPriorityLabel this issueLabels pullLabels) as [p|];
      [destruct Hnew as [->|[? _]]; [by left | done] | done].
Qed.

(** X5. The sets a reconciliation computes list no label twice, and it never
    asks for more than three labels to be added, one per category. *)
Theorem reconcile_diff_small (this : PullRequestLabelManager)
    (names : list string) (answers : list (list string)) :
  NoDup (fst (reconcile this names answers)) ∧
  NoDup (adds (snd (reconcile this names answers))) ∧
  NoDup (removes (snd (reconcile this names answers))) ∧
  (length (adds (snd (reconcile this names answers))) ≤ 3)%nat.
Proof.
  unfold reconcile. cbn [fst snd].
  pose proof (NoDup_of_array names) as Hn.
  pose proof (NoDup_newPullLabels this _ (JsSet.of_array (concat answers)) Hn)
    as Hnew.
  assert (Hadds : NoDup (adds (setDiff (JsSet.of_array names)
            (newPullLabels this (JsSet.of_array names)
               (JsSet.of_array (concat answers))))))
    by (by apply NoDup_bool_filter).
  repeat split; [done | done | by apply NoDup_bool_filter |].
  etrans.
  - apply submseteq_length, NoDup_submseteq; [exact Hadds|].
    intros l. apply adds_are_resolved.
  - rewrite !length_app.
    destruct (highestPriorityLabel _ _ _), (classification _ _),
      (largestEffort _ _); simpl; lia.
Qed.

(** ** A resolved category *)

(** X6. When the candidate lists do not overlap, a category with a resolution
    ends with exactly its resolved label: of the entries of its list, the new
    set holds that label and no other. *)
Theorem resolved_category_exact (this : PullRequestLabelManager)
    (pullLabels issueLabels : list string) :
  categories_disjoint this →
  let final := newPullLabels this pullLabels issueLabels in
  (∀ p, highestPriorityLabel this issueLabels pullLabels = Some p →
        ∀ l, l ∈ priorityLabels this → (l ∈ final ↔ l = p)) ∧
  (∀ c, classification this issueLabels = Some c →
        ∀ l, l ∈ classificationLabels this → (l ∈ final ↔ l = c)) ∧
  (∀ e, largestEffort this issueLabels = Some e →
        ∀ l, l ∈ effortLabels this → (l ∈ final ↔ l = e)).
Proof.
  intros Hd final.
  destruct (newPullLabels_resolved this pullLabels issueLabels Hd)
    as (Hp & Hc & He).
  split; [|split].
  - intros p [Hin Honly]%Hp l Hl. split; [intros ?; by apply Honly | by intros ->].
  - intros c [Hin Honly]%Hc l Hl. split; [intros ?; by apply Honly | by intros ->].
  - intros e [Hin Honly]%He l Hl. split; [intros ?; by apply Honly | by intros ->].
Qed.

Lemma resolved_category_exact_witness :
  "feature-request" ∉
    newPullLabels defaultManager ["p2"; "feature-request"] ["p0"; "bug"].
Proof.
  destruct (resolved_category_exact defaultManager ["p2"; "feature-request"]
              ["p0"; "bug"] defaultManager_disjoint) as (_ & Hc & _).
  intros Hin. apply (Hc "bug") in Hin; [discriminate Hin | reflexivity |].
  apply (bool_decide_unpack _). vm_compute. exact I.
Defined.

(** ** A pull request that references no issue *)

(** X7. Without labels from issues only the priority category is resolved:
    with a non-empty priority list the new set is the old one with its
    priority labels replaced by one, the first entry of the list the pull
    request had or else the last entry, and every label outside the priority
    list stays as it was. *)
Theorem unreferenced_priority_only (this : PullRequestLabelManager)
    (pullLabels : list string) :
  priorityLabels this ≠ [] →
  ∃ p, newPullLabels this pullLabels []
         = replaceLabels pullLabels (priorityLabels this) (Some p) ∧
       (first_present (priorityLabels this) pullLabels p ∨
        (none_present (priorityLabels this) pullLabels ∧
         last (priorityLabels this) = Some p)) ∧
       ∀ l, l ∉ priorityLabels this →
            (l ∈ newPullLabels this pullLabels [] ↔ l ∈ pullLabels).
Proof.
  intros Hne.
  assert (Hnone : ∀ cs, List.find (JsSet.has []) cs = None).
  { intros cs. apply find_None_all. intros x _. apply has_false, not_elem_of_nil. }
  unfold newPullLabels, classification, largestEffort, highestPriorityLabel.
  rewrite !Hnone. cbn [replaceLabels].
  destruct (List.find (JsSet.has pullLabels) (priorityLabels this)) as [p|] eqn:Ep.
  - exists p. split; [done|]. split; [left; by apply find_has_first|].
    intros l Hl. apply find_has_elem in Ep as [Hp _].
    rewrite elem_of_replaceLabels_Some.
    split; [intros [->|[? _]]; done | auto].
  - apply find_has_none in Ep.
    destruct (last_is_Some _ Hne) as (p & Hlast & Hp).
    rewrite last_index_lookup, Hlast. exists p. split; [done|].
    split; [by right|]. intros l Hl.
    rewrite elem_of_replaceLabels_Some.
    split; [intros [->|[? _]]; done | auto].
Qed.

Lemma unreferenced_priority_only_witness :
  ∃ p, newPullLabels defaultManager ["bug"; "p1"; "p0"] []
         = replaceLabels ["bug"; "p1"; "p0"] (priorityLabels defaultManager)
             (Some p) ∧
       (first_present (priorityLabels defaultManager) ["bug"; "p1"; "p0"] p ∨
        (none_present (priorityLabels defaultManager) ["bug"; "p1"; "p0"] ∧
         last (priorityLabels defaultManager) = Some p)) ∧
       ∀ l, l ∉ priorityLabels defaultManager →
            (l ∈ newPullLabels defaultManager ["bug"; "p1"; "p0"] []
             ↔ l ∈ ["bug"; "p1"; "p0"]).
Proof.
  apply (unreferenced_priority_only defaultManager ["bug"; "p1"; "p0"]).
  discriminate.
Defined.

(** ** Requests that are rejected *)

Section Rejections.

Context {W : Type} `{Gateway W}.
Variable this : PullRequestLabelManager.

Lemma allIssueLabels_rejected references (w : W) i e :
  i ∈ references → issues_get i w = inl e →
  ∃ e', allIssueLabels references w = inl e'.
Proof.
  intros Hi Hget. induction references as [|r rs IH]; [by apply elem_of_nil in Hi|].
  simpl. destruct (issueLabels r w) as [e1|ls] eqn:E1; [by eexists|].
  apply elem_of_cons in Hi as [->|Hi].
  - unfold issueLabels in E1. by rewrite Hget in E1.
  - destruct (IH Hi) as [e' ->]. by eexists.
Qed.

(** X8. A reconciliation whose pull request cannot be read, or one of whose
    referenced issues cannot be read, throws and leaves the repository as it
    was: no label is added or removed before every answer is in. *)
Theorem rejected_fetch_changes_nothing (pullNumber : N) (w : W) :
  (∀ e, pulls_get pullNumber w = inl e →
        copyLabelsFromReferencedIssues this pullNumber w = Throw e w) ∧
  (∀ pull i e,
     pulls_get pullNumber w = inr pull →
     i ∈ findReferencedIssues this (default [] (body pull)) →
     issues_get i w = inl e →
     ∃ e', copyLabelsFromReferencedIssues this pullNumber w = Throw e' w).
Proof.
  split.
  - intros e He. unfold copyLabelsFromReferencedIssues. by rewrite He.
  - intros pull i e Hpull Hi He. unfold copyLabelsFromReferencedIssues.
    rewrite Hpull.
    destruct (allIssueLabels_rejected _ w i e Hi He) as [e' ->]. by eexists.
Qed.

(** X9. Whether a reconciliation returns or throws, once the pull request and
    the issues are read, is decided by the [addLabels] request alone: when it
    is accepted the method returns, whatever becomes of the [removeLabel]
    requests. *)
Theorem removeLabel_rejections_unseen (pullNumber : N) (w w1 : W)
    (pull : PullData) (answers : list (list string)) :
  pulls_get pullNumber w = inr pull →
  allIssueLabels (findReferencedIssues this (default [] (body pull))) w
    = inr answers →
  issues_addLabels pullNumber
    (adds (snd (reconcile this (default "" <$> labels pull) answers))) w
    = inr w1 →
  ∃ w2, copyLabelsFromReferencedIssues this pullNumber w = Return () w2.
Proof.
  intros Hpull Hanswers Hadd. unfold copyLabelsFromReferencedIssues.
  rewrite Hpull, Hanswers.
  destruct (isEmptyDiff _); [by eexists|].
  unfold applyDiff. rewrite Hadd. by eexists.
Qed.

(** X10. A manager built without pull numbers, from a run that no pull request
    triggered, does nothing: [doPulls] returns at once and sends no request. *)
Theorem doPulls_without_pulls (token : string)
    (options : PullRequsetLabelManagerOptions)
    (context : Context) (m : PullRequestLabelManager) (w : W) :
  constructor token options context = inr m →
  suppliedPullNumbers options = [] →
  ctx_pull_request context = None →
  doPulls m w = Return () w.
Proof.
  intros Hm Hnone Hctx. unfold doPulls.
  destruct (constructor_inr _ _ _ _ Hm) as (_ & _ & _ & _ & _ & ->).
  by rewrite Hnone, Hctx.
Qed.

End Rejections.

Lemma rejected_fetch_changes_nothing_witness :
  copyLabelsFromReferencedIssues twoPullsManager 1 repoWithoutPull1
    = Throw (NotFound 1) repoWithoutPull1 ∧
  ∃ e, copyLabelsFromReferencedIssues twoPullsManager 2 repoMissingIssue
         = Throw e repoMissingIssue.
Proof.
  split.
  - apply (rejected_fetch_changes_nothing twoPullsManager 1 repoWithoutPull1).
    reflexivity.
  - apply (proj2 (rejected_fetch_changes_nothing twoPullsManager 2
                    repoMissingIssue)
             {| body := Some (Text.of_string "Fixes #5"); labels := [Some "p2"] |}
             (Finite 5) (NotFound 5)).
    + reflexivity.
    + apply (bool_decide_unpack _). vm_compute. exact I.
    + reflexivity.
Defined.

Lemma removeLabel_rejections_unseen_witness :
  ∃ w2, copyLabelsFromReferencedIssues defaultManager 1
          (scenarioRepo "Fixes #5") = Return () w2.
Proof.
  eapply (removeLabel_rejections_unseen defaultManager 1
            (scenarioRepo "Fixes #5")).
  - reflexivity.
  - vm_compute. reflexivity.
  - vm_compute. reflexivity.
Defined.

Lemma doPulls_without_pulls_witness :
  ∃ m, constructor "token" defaultOptions
         {| ctx_repo := Some (Text.of_string "octo", Text.of_string "demo");
            ctx_pull_request := None |} = inr m ∧
       doPulls m repoWithoutPull1 = Return () repoWithoutPull1.
Proof.
  eexists. split; [reflexivity|].
  apply (doPulls_without_pulls "token" defaultOptions
           {| ctx_repo := Some (Text.of_string "octo", Text.of_string "demo");
              ctx_pull_request := None |}); reflexivity.
Defined.

(** ** Reconciliation on the repository held in memory *)

Lemma only_labels_changed_refl pulls w : only_labels_changed pulls w w.
Proof. by repeat split. Qed.

Lemma only_labels_changed_trans pulls w1 w2 w3 :
  only_labels_changed pulls w1 w2 → only_labels_changed pulls w2 w3 →
  only_labels_changed pulls w1 w3.
Proof.
  intros (Hi & Hb & Ho) (Hi' & Hb' & Ho'). split; [congruence|].
  split; intros m.
  - by rewrite Hb'.
  - intros Hm. by rewrite Ho', Ho.
Qed.

Lemma only_labels_changed_mono pulls pulls' w w' :
  (∀ m, m ∈ pulls → m ∈ pulls') →
  only_labels_changed pulls w w' → only_labels_changed pulls' w w'.
Proof.
  intros Hsub (Hi & Hb & Ho). split; [done|]. split; [done|].
  intros m Hm. apply Ho. intros ?. apply Hm. by apply Hsub.
Qed.

Lemma repo_set_labels_frame n p ls w :
  repo_pulls w !! n = Some p →
  only_labels_changed [n] w (repo_set_labels n p ls w).
Proof.
  intros Hp. split; [done|]. split; intros m; simpl.
  - destruct (decide (n = m)) as [->|Hne].
    + by rewrite lookup_insert_eq, Hp.
    + by rewrite lookup_insert_ne.
  - intros Hm. rewrite lookup_insert_ne; [done|].
    intros ->. apply Hm. apply list_elem_of_here.
Qed.

Lemma repo_set_labels_twice n p L1 L2 w :
  repo_set_labels n {| body := body p; labels := L1 |} L2
    (repo_set_labels n p L1 w) = repo_set_labels n p L2 w.
Proof. unfold repo_set_labels. simpl. by rewrite insert_insert_eq. Qed.

Lemma repo_set_labels_same n p w :
  repo_pulls w !! n = Some p → repo_set_labels n p (labels p) w = w.
Proof.
  intros Hp. destruct w as [pulls issues], p as [b ls]. unfold repo_set_labels.
  simpl in *. by rewrite insert_id.
Qed.

Lemma filter_absent (L : list (option string)) (l : string) :
  Some l ∉ L → filter (λ x, x ≠ Some l) L = L.
Proof.
  induction L as [|o L IH]; [done|].
  intros [Ho HL]%not_elem_of_cons.
  rewrite filter_cons_True by done. by rewrite IH.
Qed.

Lemma elem_of_added (L : list (option string)) (ls : list string) o :
  o ∈ foldl (λ acc l, if bool_decide (Some l ∈ acc) then acc
                      else acc ++ [Some l]) L ls
  ↔ o ∈ L ∨ ∃ x, x ∈ ls ∧ o = Some x.
Proof.
  revert L. induction ls as [|l ls IH]; intros L; simpl.
  - split; [auto | intros [?|(x & Hx & _)]; [done | by apply elem_of_nil in Hx]].
  - rewrite IH. case_bool_decide as Hl.
    + split.
      * intros [?|(x & Hx & ->)]; [by left|].
        right. exists x. split; [by apply list_elem_of_further | done].
      * intros [?|(x & [->|Hx]%elem_of_cons & ->)]; [by left | by left |].
        right. by exists x.
    + rewrite elem_of_app, list_elem_of_singleton. split.
      * intros [[?| ->]|(x & Hx & ->)]; [by left | |].
        { right. exists l. split; [apply list_elem_of_here | done]. }
        right. exists x. split; [by apply list_elem_of_further | done].
      * intros [?|(x & [->|Hx]%elem_of_cons & ->)];
          [by left; left | by left; right |].
        right. by exists x.
Qed.

Lemma elem_of_removed (L : list (option string)) (rs : list string) o :
  o ∈ foldl (λ L0 l, filter (λ x, x ≠ Some l) L0) L rs
  ↔ o ∈ L ∧ ∀ l, l ∈ rs → o ≠ Some l.
Proof.
  revert L. induction rs as [|r rs IH]; intros L; simpl.
  - split; [intros ?; split; [done|] | tauto].
    intros l Hl. by apply elem_of_nil in Hl.
  - rewrite IH, list_elem_of_filter. split.
    + intros [[Hne Ho] Hrs]. split; [done|].
      intros l [->|Hl]%elem_of_cons; auto.
    + intros [Ho Hall]. split; [split; [|done]|].
      * apply Hall, list_elem_of_here.
      * intros l Hl. by apply Hall, list_elem_of_further.
Qed.

Lemma memory_removals n p w (rs : list string) :
  ∀ L,
    foldl (λ w0 label,
             match issues_removeLabel n label w0 with
             | inr w' => w'
             | inl _ => w0
             end) (repo_set_labels n p L w) rs
    = repo_set_labels n p
        (foldl (λ L0 l, filter (λ x, x ≠ Some l) L0) L rs) w.
Proof.
  induction rs as [|r rs IH]; intros L; [done|].
  cbn [foldl]. rewrite <- IH. f_equal.
  cbn [issues_removeLabel memory_gateway repo_set_labels repo_pulls].
  rewrite lookup_insert_eq. cbn [labels body].
  case_bool_decide as Hr.
  - unfold repo_set_labels. simpl. by rewrite insert_insert_eq.
  - by rewrite filter_absent.
Qed.

(** The two mutations on the repository in memory: the labels of the pull
    request become the former ones and the added ones, without the removed
    ones. *)
Lemma memory_applyDiff n diff w p :
  repo_pulls w !! n = Some p →
  ∃ L, applyDiff n diff w = Return () (repo_set_labels n p L w) ∧
       (∀ x, Some x ∈ L ↔
             (Some x ∈ labels p ∨ x ∈ adds diff) ∧ x ∉ removes diff) ∧
       (None ∈ L ↔ None ∈ labels p).
Proof.
  intros Hp. unfold applyDiff.
  cbn [issues_addLabels memory_gateway]. rewrite Hp.
  rewrite memory_removals. eexists. split; [reflexivity|]. split.
  - intros x. rewrite elem_of_removed, elem_of_added. split.
    + intros [[?|(y & Hy & [= <-])] Hall].
      * split; [by left|]. intros Hx. by apply (Hall x).
      * split; [by right|]. intros Hx. by apply (Hall x).
    + intros [Hin Hx]. split.
      * destruct Hin as [?|?]; [by left | right; by exists x].
      * intros l Hl [= ->]. done.
  - rewrite elem_of_removed, elem_of_added. split.
    + intros [[?|(y & _ & ?)] _]; done.
    + intros Hin. split; [by left | done].
Qed.

Lemma elem_of_named (L : list (option string)) (l : string) :
  None ∉ L → (l ∈ (default "" <$> L) ↔ Some l ∈ L).
Proof.
  intros Hnone. rewrite list_elem_of_fmap. split.
  - intros ([x|] & -> & Hx); [done | by destruct Hnone].
  - intros Hl. by exists (Some l).
Qed.

Lemma labels_of_set_labels n p L w :
  labels_of n (repo_set_labels n p L w) = Some (default "" <$> L).
Proof. unfold labels_of. simpl. by rewrite lookup_insert_eq. Qed.

(** ** The same pull request again *)

Lemma replaceLabels_same_set labels labels' remove o :
  same_set labels labels' →
  same_set (replaceLabels labels remove o) (replaceLabels labels' remove o).
Proof.
  intros Hs l. rewrite !elem_of_replaceLabels.
  destruct o; by rewrite (Hs l).
Qed.

Lemma newPullLabels_same_pull this pullLabels pullLabels' issueLabels :
  same_set pullLabels pullLabels' →
  same_set (newPullLabels this pullLabels issueLabels)
    (newPullLabels this pullLabels' issueLabels).
Proof.
  intros Hs. unfold newPullLabels.
  assert (highestPriorityLabel this issueLabels pullLabels
          = highestPriorityLabel this issueLabels pullLabels') as ->.
  { unfold highestPriorityLabel.
    by rewrite (find_ext (JsSet.has pullLabels) (JsSet.has pullLabels'))
      by (intros x; by apply has_same_set). }
  by do 3 apply replaceLabels_same_set.
Qed.

Lemma newPullLabels_twice this pullLabels issueLabels :
  categories_disjoint this →
  same_set
    (newPullLabels this (newPullLabels this pullLabels issueLabels) issueLabels)
    (newPullLabels this pullLabels issueLabels).
Proof.
  intros Hd.
  destruct (newPullLabels_resolved this pullLabels issueLabels Hd)
    as (Hp & Hc & He).
  set (once := newPullLabels this pullLabels issueLabels) in *.
  unfold newPullLabels at 1.
  destruct (highestPriorityLabel this issueLabels pullLabels) as [p|] eqn:E.
  - pose proof (highestPriorityLabel_again this pullLabels issueLabels p Hd E)
      as Hagain.
    fold once in Hagain. rewrite Hagain.
    apply replaceLabels_stable; [apply replaceLabels_stable;
      [apply replaceLabels_stable|] |]; done.
  - apply highestPriorityLabel_None in E.
    assert (highestPriorityLabel this issueLabels once = None) as ->
      by (unfold highestPriorityLabel; by rewrite E).
    apply replaceLabels_stable; [apply replaceLabels_stable;
      [apply replaceLabels_stable|] |]; done.
Qed.

Lemma memory_allIssueLabels_issues references (w w' : Repo) :
  repo_issues w' = repo_issues w →
  allIssueLabels references w' = allIssueLabels references w.
Proof.
  intros Hi. induction references as [|r rs IH]; [done|].
  simpl. rewrite IH. unfold issueLabels.
  cbn [issues_get memory_gateway]. by rewrite Hi.
Qed.

(** ** What [doPulls] leaves alone *)

Lemma memory_copy_frame this n w :
  only_labels_changed [n] w
    (final_state (copyLabelsFromReferencedIssues this n w)).
Proof.
  unfold copyLabelsFromReferencedIssues. cbn [pulls_get memory_gateway].
  destruct (repo_pulls w !! n) as [pull|] eqn:Hp;
    [|apply only_labels_changed_refl].
  destruct (allIssueLabels _ w) as [e|answers];
    [apply only_labels_changed_refl|].
  destruct (isEmptyDiff _); [apply only_labels_changed_refl|].
  destruct (memory_applyDiff n
              (snd (reconcile this (default "" <$> labels pull) answers))
              w pull Hp) as (L & -> & _).
  by apply repo_set_labels_frame.
Qed.

Lemma memory_doPulls_loop_frame this pulls w :
  only_labels_changed pulls w (final_state (doPulls_loop this pulls w)).
Proof.
  revert w. induction pulls as [|n pulls IH]; intros w;
    [apply only_labels_changed_refl|].
  cbn [doPulls_loop].
  pose proof (memory_copy_frame this n w) as Hn.
  apply (only_labels_changed_mono [n] (n :: pulls)) in Hn;
    [|intros m ->%list_elem_of_singleton; apply list_elem_of_here].
  destruct (copyLabelsFromReferencedIssues this n w) as [[] w1|e w1];
    [|done].
  eapply only_labels_changed_trans; [exact Hn|].
  eapply only_labels_changed_mono; [|apply IH].
  intros m ?. by apply list_elem_of_further.
Qed.

(** X13. Whether it returns or throws, [doPulls] changes nothing but labels of
    the pull requests it was given: the issues are as before, no pull request
    appears or disappears, no description changes, and every pull request
    outside the list is untouched. *)
Theorem doPulls_changes_labels_only (this : PullRequestLabelManager) (w : Repo) :
  only_labels_changed (pullNumbers this) w (final_state (doPulls this w)).
Proof. apply memory_doPulls_loop_frame. Qed.

(** ** A description that starts with a reference *)

Section Found.

Import RegExp.

Lemma run_app_stop a xs ys :
  Forall (λ c, matches a c = true) xs →
  (∀ c r, ys = c :: r → matches a c = false) →
  run a (xs ++ ys) = length xs.
Proof.
  intros Hxs Hys. induction Hxs as [|x xs Hx _ IH]; simpl.
  - destruct ys as [|c r]; [done|]. simpl. by rewrite (Hys c r).
  - by rewrite Hx, IH.
Qed.

Lemma exec_ones_complete atoms mid q s :
  Forall2 (λ a c, matches a c = true) atoms mid →
  exec ((One <$> atoms) ++ q) (mid ++ s) = exec q s.
Proof.
  induction 1 as [|a c atoms mid Hac _ IH]; simpl; [done|]. by rewrite Hac.
Qed.

Lemma exec_number ds post :
  ds ≠ [] → Forall (λ c, Text.isDigit c = true) ds → ends_number post →
  exec [Plus DigitChar] (ds ++ post) = Some ([ds], post).
Proof.
  intros Hne Hds Hpost. cbn [exec].
  rewrite (run_app_stop DigitChar ds post Hds)
    by (intros c r ->; exact Hpost).
  destruct ds as [|d ds]; [done|]. cbn [length longest_first].
  change (S (length ds)) with (length (d :: ds)).
  by rewrite drop_app_length, take_app_length.
Qed.

(** A keyword, the fixed text and a number at the start of the text are
    matched as such. *)
Lemma exec_keyword_number_complete atoms kw mid ds post :
  kw ≠ [] → Forall (λ c, Text.isWord c = true) kw →
  Forall2 (λ a c, matches a c = true) (Lit 32 :: atoms) mid →
  ds ≠ [] → Forall (λ c, Text.isDigit c = true) ds → ends_number post →
  exec (keyword_number (Lit 32 :: atoms)) (kw ++ mid ++ ds ++ post)
    = Some ([kw; ds], post).
Proof.
  intros Hkw Hword Hmid Hds Hdigits Hpost.
  rewrite exec_word_then_space.
  rewrite (run_app_stop WordChar kw _ Hword).
  - destruct kw as [|k kw]; [done|]. cbn [length].
    change (S (length kw)) with (length (k :: kw)).
    rewrite drop_app_length, take_app_length.
    change (One (Lit 32) :: (One <$> atoms) ++ [Plus DigitChar])
      with ((One <$> (Lit 32 :: atoms)) ++ [Plus DigitChar]).
    rewrite (exec_ones_complete _ _ _ _ Hmid).
    by rewrite (exec_number ds post).
  - intros c r Hc. apply Forall2_cons_inv_l in Hmid as (c' & mid' & H32 & _ & ->).
    injection Hc as <- _. apply N.eqb_eq in H32. by subst.
Qed.

Lemma matchAll_head p text caps rest :
  text ≠ [] →
  exec p text = Some (caps, rest) →
  ∃ more, matchAll p text = caps :: more.
Proof.
  intros Hne He. destruct text as [|c s]; [done|].
  unfold matchAll. cbn [matchAll_from]. rewrite He. by eexists.
Qed.

Lemma issuesClosed_head text regex kw ds more :
  matchAll regex text = [kw; ds] :: more →
  Text.toLowerCase kw ∈ GITHUB_CLOSE_ISSUE_KEYWORDS →
  ∃ rest, issuesClosed text regex = ds :: rest.
Proof.
  intros Hm Hk. unfold issuesClosed. rewrite Hm. cbn [List.filter].
  change (group 1 [kw; ds]) with kw. rewrite bool_decide_eq_true_2 by done.
  by eexists.
Qed.

Lemma keyword_letters kw :
  Text.toLowerCase kw ∈ GITHUB_CLOSE_ISSUE_KEYWORDS →
  kw ≠ [] ∧ Forall (λ c, Text.isWord c = true) kw.
Proof.
  intros Hk.
  assert (Hlower : Forall (λ c, (97 <=? c) && (c <=? 122) = true)
                     (Text.toLowerCase kw)).
  { assert (Hall : Forall (Forall (λ c, (97 <=? c) && (c <=? 122) = true))
                     GITHUB_CLOSE_ISSUE_KEYWORDS)
      by (apply (bool_decide_unpack _); vm_compute; exact I).
    rewrite Forall_forall in Hall. by apply Hall. }
  split.
  - intros ->. revert Hk. apply (bool_decide_unpack _). vm_compute. exact I.
  - clear Hk. induction kw as [|c kw IH]; [apply Forall_nil_2|].
    cbn [Text.toLowerCase fmap list_fmap] in Hlower.
    apply Forall_cons in Hlower as [Hc Hrest].
    apply Forall_cons. split; [|by apply IH].
    unfold Text.isWord, Text.isDigit.
    destruct ((65 <=? c) && (c <=? 90)) eqn:Eu.
    + by rewrite orb_true_r.
    + rewrite Hc. by rewrite orb_true_r.
Qed.

Lemma source_reads_itself (text : list N) :
  Forall2 (λ a c, matches a c = true) (source_atom <$> text) text.
Proof.
  induction text as [|c text IH]; [apply Forall2_nil_2|].
  cbn [fmap list_fmap]. apply Forall2_cons. split; [|done].
  unfold source_atom. destruct (c =? 46) eqn:E; simpl.
  - apply N.eqb_eq in E. by subst.
  - apply N.eqb_refl.
Qed.

Lemma parseInt10_digits ds :
  ds ≠ [] → Forall (λ c, Text.isDigit c = true) ds →
  parseInt10 ds = toNumber (decimalValue ds).
Proof.
  intros Hne Hdigits. unfold parseInt10.
  pose proof (run_app_stop DigitChar ds [] Hdigits) as Hrun.
  rewrite app_nil_r in Hrun. rewrite Hrun by done.
  rewrite firstn_all. by destruct ds.
Qed.

Lemma toNumber_small v : v < 2 ^ 53 → toNumber v = Finite v.
Proof. intros Hv. unfold toNumber. apply N.ltb_lt in Hv. by rewrite Hv. Qed.

(** X14. A description that starts with a closing keyword, written in any mix
    of cases, then [" #"] and a run of digits, gives as the first referenced
    issue the number [parseInt] reads from the digits; when it starts with
    the keyword, a space, the URL of the issues of the repository and the
    digits, that number is among the referenced issues. The number is the
    double nearest to the decimal value of the digits: the value itself when
    it is below [2^53]. *)
Theorem leading_reference_found (this : PullRequestLabelManager)
    (kw ds post : list N) :
  Text.toLowerCase kw ∈ GITHUB_CLOSE_ISSUE_KEYWORDS →
  ds ≠ [] → Forall (λ c, Text.isDigit c = true) ds → ends_number post →
  (∃ rest,
     findReferencedIssues this (kw ++ Text.of_string " #" ++ ds ++ post)
       = parseInt10 ds :: rest) ∧
  parseInt10 ds ∈
    findReferencedIssues this (kw ++ urlMiddle this ++ ds ++ post) ∧
  parseInt10 ds = toNumber (decimalValue ds) ∧
  (decimalValue ds < 2 ^ 53 → parseInt10 ds = Finite (decimalValue ds)).
Proof.
  intros Hk Hds Hdigits Hpost.
  destruct (keyword_letters kw Hk) as [Hne Hword].
  assert (Hstart : ∀ tail : list N, kw ++ tail ≠ [])
    by (intros tail; destruct kw; done).
  split; [|split; [|split]].
  - assert (He : exec hashRegex (kw ++ Text.of_string " #" ++ ds ++ post)
                 = Some ([kw; ds], post)).
    { rewrite hashRegex_shape. apply exec_keyword_number_complete; try done.
      repeat constructor. }
    apply matchAll_head in He as [more Hm]; [|done].
    unfold findReferencedIssues.
    destruct (issuesClosed_head _ _ _ _ _ Hm Hk) as [rest ->].
    by eexists.
  - assert (He : exec (urlRegex this) (kw ++ urlMiddle this ++ ds ++ post)
                 = Some ([kw; ds], post)).
    { rewrite urlRegex_shape.
      pose proof (source_reads_itself (urlMiddle this)) as Hself.
      fold (urlAtoms this) in Hself.
      destruct (urlAtoms_space this) as (tail & Hatoms). rewrite Hatoms in *.
      by apply exec_keyword_number_complete. }
    apply matchAll_head in He as [more Hm]; [|done].
    unfold findReferencedIssues.
    destruct (issuesClosed_head _ _ _ _ _ Hm Hk) as [rest ->].
    apply list_elem_of_fmap_2, elem_of_app. right. apply list_elem_of_here.
  - by apply parseInt10_digits.
  - intros Hsmall. rewrite parseInt10_digits by done. by apply toNumber_small.
Qed.

End Found.

Lemma leading_reference_found_witness :
  (∃ rest,
     findReferencedIssues defaultManager
       (Text.of_string "FIXES" ++ Text.of_string " #" ++ Text.of_string "42"
          ++ Text.of_string ": see the report")
       = parseInt10 (Text.of_string "42") :: rest) ∧
  parseInt10 (Text.of_string "42") ∈
    findReferencedIssues defaultManager
      (Text.of_string "FIXES" ++ urlMiddle defaultManager
         ++ Text.of_string "42" ++ Text.of_string ": see the report") ∧
  parseInt10 (Text.of_string "42") = Finite 42.
Proof.
  destruct (leading_reference_found defaultManager (Text.of_string "FIXES")
              (Text.of_string "42") (Text.of_string ": see the report"))
    as (Hfirst & Hurl & _ & Hexact).
  - apply (bool_decide_unpack _). vm_compute. exact I.
  - discriminate.
  - apply (bool_decide_unpack _). vm_compute. exact I.
  - reflexivity.
  - split; [exact Hfirst|]. split; [exact Hurl|].
    apply Hexact. reflexivity.
Defined.

(** ** The caller's array of pull numbers *)

Lemma pullNumbersObject_agrees token priority classification effort supplied
    context heap m :
  constructor token (optionsAt priority classification effort supplied heap)
    context = inr m →
  (pullNumbersObject supplied context heap).2
    !!! (pullNumbersObject supplied context heap).1 = pullNumbers m.
Proof.
  unfold constructor. destruct (String.eqb token ""); [done|].
  destruct (ctx_repo context) as [[o r]|]; [|done].
  intros [= <-]. unfold pullNumbersObject, optionsAt. cbn [pullNumbers
    opt_pullNumbers].
  destruct supplied as [a|]; cbn [fmap option_fmap option_map].
  - destruct (0 <? length (heap !!! a))%nat eqn:E.
    + destruct (ctx_pull_request context); cbn [fst snd]; [|done].
      by rewrite lookup_total_insert_eq.
    + destruct (ctx_pull_request context); cbn [fst snd];
        by rewrite ?lookup_total_insert_eq.
  - destruct (ctx_pull_request context); cbn [fst snd];
      by rewrite ?lookup_total_insert_eq.
Qed.

Lemma pullNumbersObject_kept context (heap : gmap nat (list N)) a ns n :
  heap !! a = Some ns → ns ≠ [] → ctx_pull_request context = Some n →
  pullNumbersObject (Some a) context heap = (a, <[a := ns ++ [n]]> heap).
Proof.
  intros Ha Hne Hctx. unfold pullNumbersObject. rewrite Hctx.
  assert (heap !!! a = ns) as -> by (by apply lookup_total_correct).
  destruct ns as [|? ?]; [done|]. cbn [length Nat.ltb Nat.leb].
  by rewrite (lookup_total_correct _ _ _ Ha).
Qed.

(** X15. The manager keeps the caller's own array of pull numbers when it is
    not empty, and the number of the triggering pull request is appended to
    that array: the caller's options have changed after construction, and a
    second manager built from the same options holds the number twice, as
    does the first, which shares the array. An absent or empty array is left
    alone: the manager gets a new one and every array of the heap is as
    before. In each case the array the manager holds reads as the
    [pullNumbers] of [constructor]. *)
Theorem constructor_appends_to_callers_array (context : Context)
    (heap : gmap nat (list N)) :
  (∀ a ns n,
     heap !! a = Some ns → ns ≠ [] → ctx_pull_request context = Some n →
     pullNumbersObject (Some a) context heap = (a, <[a := ns ++ [n]]> heap) ∧
     pullNumbersObject (Some a) context (<[a := ns ++ [n]]> heap)
       = (a, <[a := ns ++ [n; n]]> heap)) ∧
  (∀ supplied,
     (∀ a, supplied = Some a → heap !!! a = []) →
     ∀ b, is_Some (heap !! b) →
          (pullNumbersObject supplied context heap).1 ≠ b ∧
          (pullNumbersObject supplied context heap).2 !! b = heap !! b) ∧
  (∀ token priority classification effort supplied m,
     constructor token (optionsAt priority classification effort supplied heap)
       context = inr m →
     (pullNumbersObject supplied context heap).2
       !!! (pullNumbersObject supplied context heap).1 = pullNumbers m).
Proof.
  split; [|split; [|intros *; apply pullNumbersObject_agrees]].
  - intros a ns n Ha Hne Hctx. split; [by apply pullNumbersObject_kept|].
    rewrite (pullNumbersObject_kept context _ a (ns ++ [n]) n);
      [|apply lookup_insert_eq | by destruct ns | done].
    by rewrite insert_insert_eq, <- app_assoc.
  - intros supplied Hempty b Hb.
    assert (Hfresh : fresh (dom heap) ≠ b).
    { intros <-. apply elem_of_dom in Hb. by apply is_fresh in Hb. }
    unfold pullNumbersObject.
    assert (match supplied with
            | Some a =>
                if (0 <? length (heap !!! a))%nat then (a, heap)
                else (fresh (dom heap), <[fresh (dom heap) := []]> heap)
            | None => (fresh (dom heap), <[fresh (dom heap) := []]> heap)
            end = (fresh (dom heap), <[fresh (dom heap) := []]> heap)) as ->.
    { destruct supplied as [a|]; [|done]. by rewrite (Hempty a eq_refl). }
    destruct (ctx_pull_request context); cbn [fst snd];
      (split; [done|]); by rewrite ?lookup_insert_ne.
Qed.

Lemma constructor_appends_to_callers_array_witness :
  pullNumbersObject (Some 0%nat)
    {| ctx_repo := Some (Text.of_string "octo", Text.of_string "demo");
       ctx_pull_request := Some 3 |} {[ 0%nat := [10; 11] ]}
    = (0%nat, <[0%nat := [10; 11] ++ [3]]> {[ 0%nat := [10; 11] ]}).
Proof.
  apply (proj1 (constructor_appends_to_callers_array
                  {| ctx_repo := Some (Text.of_string "octo", Text.of_string "demo");
                     ctx_pull_request := Some 3 |} {[ 0%nat := [10; 11] ]})
           0%nat [10; 11] 3); [reflexivity | discriminate | reflexivity].
Defined.

(** ** Labels that already match *)

Section EarlyReturn.

Context {W : Type} `{Gateway W}.
Variable this : PullRequestLabelManager.

(** Line 104: with an empty diff the method returns before any label
    request. *)
Lemma copy_empty_diff (n : N) (w : W) pull answers :
  pulls_get n w = inr pull →
  allIssueLabels (findReferencedIssues this (default [] (body pull))) w
    = inr answers →
  isEmptyDiff (snd (reconcile this (default "" <$> labels pull) answers))
    = true →
  copyLabelsFromReferencedIssues this n w = Return () w.
Proof.
  intros Hpull Hanswers Hempty. unfold copyLabelsFromReferencedIssues.
  by rewrite Hpull, Hanswers, Hempty.
Qed.

(** X16. When the pull request already holds, for every category that is
    resolved, the resolved label and no other entry of that category's list,
    the diff is empty and [copyLabelsFromReferencedIssues] returns with the
    service in the state it started from, for any gateway: no label request
    is started, not even an [addLabels] with no label. *)
Theorem matching_labels_no_request (n : N) (w : W) (pull : PullData)
    (answers : list (list string)) :
  pulls_get n w = inr pull →
  allIssueLabels (findReferencedIssues this (default [] (body pull))) w
    = inr answers →
  let pullLabels := JsSet.of_array (default "" <$> labels pull) in
  let issueLabels := JsSet.of_array (concat answers) in
  (∀ p, highestPriorityLabel this issueLabels pullLabels = Some p →
        p ∈ pullLabels ∧ only_of (priorityLabels this) pullLabels p) →
  (∀ c, classification this issueLabels = Some c →
        c ∈ pullLabels ∧ only_of (classificationLabels this) pullLabels c) →
  (∀ e, largestEffort this issueLabels = Some e →
        e ∈ pullLabels ∧ only_of (effortLabels this) pullLabels e) →
  isEmptyDiff (snd (reconcile this (default "" <$> labels pull) answers))
    = true ∧
  copyLabelsFromReferencedIssues this n w = Return () w.
Proof.
  intros Hpull Hanswers pullLabels issueLabels Hp Hc He.
  assert (Hempty : isEmptyDiff
            (snd (reconcile this (default "" <$> labels pull) answers)) = true).
  { unfold reconcile. cbn [snd]. fold pullLabels issueLabels.
    apply isEmptyDiff_same_set. intros l. symmetry. revert l.
    unfold newPullLabels.
    apply replaceLabels_stable; [apply replaceLabels_stable;
      [apply replaceLabels_stable|] |]; done. }
  split; [done|]. by apply copy_empty_diff with pull answers.
Qed.

End EarlyReturn.

(** A pull request that already has the labels of the issue it closes. *)
Lemma matching_labels_no_request_witness :
  copyLabelsFromReferencedIssues defaultManager 1
    {| served :=
         {| repo_pulls :=
              {[ 1 := {| body := Some (Text.of_string "Fixes #5");
                         labels := [Some "docs"; Some "p0"; Some "bug"] |} ]};
            repo_issues :=
              {[ 5 := [LabelObject (Some "p0"); LabelObject (Some "bug")] ]} |};
       started := [] |}
  = Return ()
      {| served :=
           {| repo_pulls :=
                {[ 1 := {| body := Some (Text.of_string "Fixes #5");
                           labels := [Some "docs"; Some "p0"; Some "bug"] |} ]};
              repo_issues :=
                {[ 5 := [LabelObject (Some "p0"); LabelObject (Some "bug")] ]} |};
         started := [] |}.
Proof.
  eapply (proj2 (matching_labels_no_request defaultManager 1 _
                   {| body := Some (Text.of_string "Fixes #5");
                      labels := [Some "docs"; Some "p0"; Some "bug"] |}
                   [["p0"; "bug"]] _ _ _ _ _)).
  Unshelve.
  - reflexivity.
  - vm_compute. reflexivity.
  - intros p Hp. vm_compute in Hp. injection Hp as <-.
    split; [apply (bool_decide_unpack _); vm_compute; exact I|].
    intros x Hx HP. vm_compute in Hx.
    repeat (apply elem_of_cons in Hx as [->|Hx];
            [apply (bool_decide_unpack _); revert HP;
             apply (bool_decide_unpack _); vm_compute; exact I|]).
    by apply elem_of_nil in Hx.
  - intros c Hc. vm_compute in Hc. injection Hc as <-.
    split; [apply (bool_decide_unpack _); vm_compute; exact I|].
    intros x Hx HC. vm_compute in Hx.
    repeat (apply elem_of_cons in Hx as [->|Hx];
            [apply (bool_decide_unpack _); revert HC;
             apply (bool_decide_unpack _); vm_compute; exact I|]).
    by apply elem_of_nil in Hx.
  - intros e He. vm_compute in He. discriminate He.
Defined.

(** ** The label requests a reconciliation starts *)

Lemma recording_allIssueLabels references (w : Recorded) :
  allIssueLabels references w = allIssueLabels references (served w).
Proof.
  induction references as [|r rs IH]; [done|].
  cbn [allIssueLabels]. by rewrite IH.
Qed.

Lemma recording_removals n (rs : list string) :
  ∀ w : Recorded,
    foldl (λ w0 label,
             match issues_removeLabel n label w0 with
             | inr w' => w'
             | inl _ => w0
             end) w rs
    = {| served := served w;
         started := started w ++ (RemoveLabel n <$> rs) |}.
Proof.
  induction rs as [|r rs IH]; intros w; cbn [foldl fmap list_fmap].
  - rewrite app_nil_r. by destruct w.
  - rewrite IH. cbn [issues_removeLabel recording_gateway served started].
    by rewrite <- app_assoc.
Qed.

Lemma recording_copy_result this n (w : Recorded) pull answers :
  repo_pulls (served w) !! n = Some pull →
  allIssueLabels (findReferencedIssues this (default [] (body pull)))
    (served w) = inr answers →
  copyLabelsFromReferencedIssues this n w
  = Return ()
      {| served := served w;
         started :=
           started w ++
           labelRequests n
             (snd (reconcile this (default "" <$> labels pull) answers)) |}.
Proof.
  intros Hpull Hanswers. unfold copyLabelsFromReferencedIssues.
  cbn [pulls_get recording_gateway memory_gateway]. rewrite Hpull.
  rewrite recording_allIssueLabels, Hanswers. unfold labelRequests.
  destruct (isEmptyDiff _) eqn:E.
  - rewrite app_nil_r. by destruct w.
  - unfold applyDiff. cbn [issues_addLabels recording_gateway].
    rewrite recording_removals. cbn [served started].
    by rewrite <- app_assoc.
Qed.

(** X17. On a gateway that records the label requests, a reconciliation
    whose pull request and referenced issues are read starts no request when
    the diff is empty, and otherwise exactly one [addLabels] request with the
    labels to add, even when there is none, followed by one [removeLabel]
    request for each label to remove, in the order of the diff. *)
Theorem label_requests_started (this : PullRequestLabelManager) (n : N)
    (w : Recorded) (pull : PullData) (answers : list (list string)) :
  repo_pulls (served w) !! n = Some pull →
  allIssueLabels (findReferencedIssues this (default [] (body pull)))
    (served w) = inr answers →
  let diff := snd (reconcile this (default "" <$> labels pull) answers) in
  started (final_state (copyLabelsFromReferencedIssues this n w))
    = started w ++
      (if isEmptyDiff diff then []
       else AddLabels n (adds diff) :: (RemoveLabel n <$> removes diff)) ∧
  served (final_state (copyLabelsFromReferencedIssues this n w)) = served w.
Proof.
  intros Hpull Hanswers diff.
  by rewrite (recording_copy_result this n w pull answers Hpull Hanswers).
Qed.

Lemma label_requests_started_witness :
  started
    (final_state
       (copyLabelsFromReferencedIssues defaultManager 1
          {| served := scenarioRepo "Fixes #5"; started := [] |}))
  = [AddLabels 1 ["p0"; "bug"]; RemoveLabel 1 "p2";
     RemoveLabel 1 "feature-request"].
Proof.
  apply (proj1 (label_requests_started defaultManager 1
                  {| served := scenarioRepo "Fixes #5"; started := [] |}
                  {| body := Some (Text.of_string "Fixes #5");
                     labels := [Some "p2"; Some "feature-request"] |}
                  [["p0"; "bug"]] eq_refl eq_refl)).
Defined.

(** ** Once the label requests have taken effect *)

Lemma memory_lookup_set_labels n p L w :
  repo_pulls (repo_set_labels n p L w) !! n
  = Some {| body := body p; labels := L |}.
Proof. simpl. apply lookup_insert_eq. Qed.

Lemma takeEffect_add n p L ls w :
  takeEffect (AddLabels n ls) (repo_set_labels n p L w)
  = repo_set_labels n p
      (foldl (λ acc l, if bool_decide (Some l ∈ acc) then acc
                       else acc ++ [Some l]) L ls) w.
Proof.
  cbn [takeEffect issues_addLabels memory_gateway].
  rewrite memory_lookup_set_labels. cbn [labels]. apply repo_set_labels_twice.
Qed.

Lemma takeEffect_remove n p L l w :
  takeEffect (RemoveLabel n l) (repo_set_labels n p L w)
  = repo_set_labels n p (filter (λ x, x ≠ Some l) L) w.
Proof.
  cbn [takeEffect issues_removeLabel memory_gateway].
  rewrite memory_lookup_set_labels. cbn [labels].
  case_bool_decide as Hl.
  - apply repo_set_labels_twice.
  - by rewrite filter_absent.
Qed.

Lemma settle_cons r rs w : settle (r :: rs) w = settle rs (takeEffect r w).
Proof. reflexivity. Qed.

(** Label requests for one pull request, none of which removes a label that
    another adds, taking effect in the order of the list: the labels are the
    former ones and the added ones, without the removed ones. *)
Lemma settle_labels n p w (rs : list Request) :
  (∀ r, r ∈ rs → (∃ ls, r = AddLabels n ls) ∨ (∃ l, r = RemoveLabel n l)) →
  (∀ ls l, AddLabels n ls ∈ rs → RemoveLabel n l ∈ rs → l ∉ ls) →
  ∀ L, ∃ L',
    settle rs (repo_set_labels n p L w) = repo_set_labels n p L' w ∧
    (∀ x, Some x ∈ L' ↔
          (Some x ∈ L ∨ ∃ ls, AddLabels n ls ∈ rs ∧ x ∈ ls) ∧
          RemoveLabel n x ∉ rs) ∧
    (None ∈ L' ↔ None ∈ L).
Proof.
  induction rs as [|r rs IH]; intros Htarget Hdisjoint L.
  - exists L. split; [done|]. split; [|done]. intros x. split.
    + intros Hx. split; [by left | apply not_elem_of_nil].
    + intros [[?|(ls & Hls & _)] _]; [done | by apply elem_of_nil in Hls].
  - assert (Htail : ∀ r0, r0 ∈ rs →
              (∃ ls, r0 = AddLabels n ls) ∨ (∃ l, r0 = RemoveLabel n l))
      by (intros r0 ?; apply Htarget; by apply list_elem_of_further).
    assert (Hdtail : ∀ ls l, AddLabels n ls ∈ rs → RemoveLabel n l ∈ rs → l ∉ ls)
      by (intros ls l ? ?; apply Hdisjoint; by apply list_elem_of_further).
    rewrite settle_cons.
    destruct (Htarget r (list_elem_of_here _ _)) as [[ls ->]|[l ->]].
    + rewrite takeEffect_add.
      destruct (IH Htail Hdtail
                  (foldl (λ acc l, if bool_decide (Some l ∈ acc) then acc
                                   else acc ++ [Some l]) L ls))
        as (L' & -> & Hsome & Hnone).
      exists L'. split; [done|]. split.
      * intros x. rewrite Hsome, elem_of_added. split.
        { intros [[[?|(y & Hy & [= <-])]|(ls' & Hls' & Hx)] Hrem].
          - split; [by left|].
            intros [[=]|?]%elem_of_cons. done.
          - split; [right; exists ls; split; [apply list_elem_of_here | done]|].
            intros [[=]|?]%elem_of_cons. done.
          - split; [right; exists ls'; split;
                      [by apply list_elem_of_further | done]|].
            intros [[=]|?]%elem_of_cons. done. }
        { intros [[?|(ls' & [[= <-]|Hls']%elem_of_cons & Hx)] Hrem].
          - split; [by left; left|].
            intros ?. apply Hrem. by apply list_elem_of_further.
          - split; [left; right; by exists x|].
            intros ?. apply Hrem. by apply list_elem_of_further.
          - split; [right; by exists ls'|].
            intros ?. apply Hrem. by apply list_elem_of_further. }
      * rewrite Hnone, elem_of_added. split; [|by left].
        intros [?|(y & _ & ?)]; done.
    + rewrite takeEffect_remove.
      destruct (IH Htail Hdtail (filter (λ x, x ≠ Some l) L))
        as (L' & -> & Hsome & Hnone).
      exists L'. split; [done|]. split.
      * intros x. rewrite Hsome, list_elem_of_filter. split.
        { intros [[[Hne ?]|(ls' & Hls' & Hx)] Hrem].
          - split; [by left|].
            intros [[= ->]|?]%elem_of_cons; done.
          - split; [right; exists ls'; split;
                      [by apply list_elem_of_further | done]|].
            intros [[= ->]|?]%elem_of_cons; [|done].
            apply (Hdisjoint ls' l); [by apply list_elem_of_further | | done].
            apply list_elem_of_here. }
        { intros [[?|(ls' & [[=]|Hls']%elem_of_cons & Hx)] Hrem].
          - split; [left; split; [|done]|].
            + intros [= ->]. apply Hrem, list_elem_of_here.
            + intros ?. apply Hrem. by apply list_elem_of_further.
          - split; [right; by exists ls'|].
            intros ?. apply Hrem. by apply list_elem_of_further. }
      * rewrite Hnone, list_elem_of_filter. split; [by intros [_ ?] | done].
Qed.

Lemma elem_of_labelRequests_add n diff ls :
  AddLabels n ls ∈ labelRequests n diff → ls = adds diff.
Proof.
  unfold labelRequests. destruct (isEmptyDiff diff); [by intros ?%elem_of_nil|].
  intros [[= ->]|Hin]%elem_of_cons; [done|].
  by apply list_elem_of_fmap in Hin as (? & [=] & _).
Qed.

Lemma elem_of_labelRequests_remove n diff l :
  RemoveLabel n l ∈ labelRequests n diff ↔ l ∈ removes diff.
Proof.
  unfold labelRequests. destruct (isEmptyDiff diff) eqn:E.
  - apply isEmptyDiff_true in E as [_ ->].
    split; intros H; by apply elem_of_nil in H.
  - rewrite elem_of_cons, list_elem_of_fmap. split.
    + intros [[=]|(y & [= ->] & ?)]. done.
    + intros ?. right. by exists l.
Qed.

Lemma elem_of_labelRequests_added n diff x :
  (∃ ls, AddLabels n ls ∈ labelRequests n diff ∧ x ∈ ls) ↔ x ∈ adds diff.
Proof.
  split.
  - intros (ls & Hls & Hx). by apply elem_of_labelRequests_add in Hls as ->.
  - intros Hx. exists (adds diff). split; [|done].
    unfold labelRequests. destruct (isEmptyDiff diff) eqn:E.
    + apply isEmptyDiff_true in E as [E _]. rewrite E in Hx.
      by apply elem_of_nil in Hx.
    + apply list_elem_of_here.
Qed.

Lemma labelRequests_target n diff r :
  r ∈ labelRequests n diff →
  (∃ ls, r = AddLabels n ls) ∨ (∃ l, r = RemoveLabel n l).
Proof.
  unfold labelRequests. destruct (isEmptyDiff diff); [by intros ?%elem_of_nil|].
  intros [->|(l & -> & _)%list_elem_of_fmap]%elem_of_cons; eauto.
Qed.

(** The repository after the label requests of a reconciliation have taken
    effect, in any order. *)
Lemma settled_result this n repo pull answers rs :
  repo_pulls repo !! n = Some pull →
  None ∉ labels pull →
  rs ≡ₚ labelRequests n
         (snd (reconcile this (default "" <$> labels pull) answers)) →
  ∃ L, settle rs repo = repo_set_labels n pull L repo ∧
       (None ∉ L) ∧
       (∀ l, Some l ∈ L ↔
             l ∈ fst (reconcile this (default "" <$> labels pull) answers)).
Proof.
  intros Hpull Hnamed Hperm.
  set (diff := snd (reconcile this (default "" <$> labels pull) answers)) in *.
  assert (Hin : ∀ r, r ∈ rs ↔ r ∈ labelRequests n diff)
    by (intros r; by rewrite Hperm).
  destruct (settle_labels n pull repo rs) with (L := labels pull)
    as (L & Hsettle & Hsome & Hnone).
  { intros r Hr. apply (labelRequests_target n diff). by apply Hin. }
  { intros ls l Hadd%Hin Hrem%Hin.
    apply elem_of_labelRequests_add in Hadd as ->.
    apply elem_of_labelRequests_remove in Hrem.
    unfold diff, reconcile in *. cbn [snd] in *.
    apply elem_of_removes in Hrem as [? ?]. by intros [? ?]%elem_of_adds. }
  rewrite repo_set_labels_same in Hsettle by done.
  exists L. split; [done|]. split; [by rewrite Hnone|].
  intros l. rewrite Hsome.
  assert ((∃ ls, AddLabels n ls ∈ rs ∧ l ∈ ls) ↔ l ∈ adds diff) as ->.
  { rewrite <- elem_of_labelRequests_added. split.
    - intros (ls & ?%Hin & ?). by exists ls.
    - intros (ls & ?%Hin & ?). by exists ls. }
  rewrite (Hin (RemoveLabel n l)), elem_of_labelRequests_remove.
  unfold diff, reconcile. cbn [fst snd].
  rewrite elem_of_adds, elem_of_removes, <- (elem_of_named _ _ Hnamed),
    <- elem_of_of_array.
  set (pullSet := JsSet.of_array (default "" <$> labels pull)).
  set (new := newPullLabels this pullSet (JsSet.of_array (concat answers))).
  destruct (decide (l ∈ pullSet)), (decide (l ∈ new)); tauto.
Qed.

Lemma recorded_requests this n repo pull answers rs :
  repo_pulls repo !! n = Some pull →
  allIssueLabels (findReferencedIssues this (default [] (body pull))) repo
    = inr answers →
  rs ≡ₚ started
         (final_state
            (copyLabelsFromReferencedIssues this n
               {| served := repo; started := [] |})) →
  rs ≡ₚ labelRequests n
         (snd (reconcile this (default "" <$> labels pull) answers)).
Proof.
  intros Hpull Hanswers.
  by rewrite (recording_copy_result this n {| served := repo; started := [] |}
                pull answers Hpull Hanswers).
Qed.

(** X11. Take a repository in memory where the pull request and the issues
    it references exist and every label of the pull request has a name, and
    the label requests a reconciliation starts there. Once these requests
    have taken effect, in whatever order, the pull request has exactly the
    labels of the new set, and nothing else in the repository has changed. *)
Theorem labels_once_requests_took_effect (this : PullRequestLabelManager)
    (n : N) (repo : Repo) (pull : PullData) (answers : list (list string))
    (rs : list Request) :
  repo_pulls repo !! n = Some pull →
  None ∉ labels pull →
  allIssueLabels (findReferencedIssues this (default [] (body pull))) repo
    = inr answers →
  rs ≡ₚ started
         (final_state
            (copyLabelsFromReferencedIssues this n
               {| served := repo; started := [] |})) →
  ∃ names,
    labels_of n (settle rs repo) = Some names ∧
    same_set names (fst (reconcile this (default "" <$> labels pull) answers)) ∧
    only_labels_changed [n] repo (settle rs repo).
Proof.
  intros Hpull Hnamed Hanswers Hrs.
  apply (recorded_requests this n repo pull answers rs Hpull Hanswers) in Hrs.
  destruct (settled_result this n repo pull answers rs Hpull Hnamed Hrs)
    as (L & -> & HL & Hmem).
  exists (default "" <$> L). split; [apply labels_of_set_labels|].
  split; [|by apply repo_set_labels_frame].
  intros l. by rewrite elem_of_named, Hmem.
Qed.

Lemma labels_once_requests_took_effect_witness :
  ∃ names,
    labels_of 1
      (settle
         (RemoveLabel 1 "feature-request"
            :: [AddLabels 1 ["p0"; "bug"]; RemoveLabel 1 "p2"])
         (scenarioRepo "Fixes #5")) = Some names ∧
    same_set names
      (fst (reconcile defaultManager ["p2"; "feature-request"] [["p0"; "bug"]])) ∧
    only_labels_changed [1] (scenarioRepo "Fixes #5")
      (settle
         (RemoveLabel 1 "feature-request"
            :: [AddLabels 1 ["p0"; "bug"]; RemoveLabel 1 "p2"])
         (scenarioRepo "Fixes #5")).
Proof.
  apply (labels_once_requests_took_effect defaultManager 1
           (scenarioRepo "Fixes #5")
           {| body := Some (Text.of_string "Fixes #5");
              labels := [Some "p2"; Some "feature-request"] |}
           [["p0"; "bug"]]).
  - reflexivity.
  - apply (bool_decide_unpack _). vm_compute. exact I.
  - vm_compute. reflexivity.
  - apply (Permutation_cons_append
             [AddLabels 1 ["p0"; "bug"]; RemoveLabel 1 "p2"]
             (RemoveLabel 1 "feature-request")).
Defined.

(** X12. With candidate lists that do not overlap, in the situation of X11:
    once the label requests of a reconciliation have taken effect, in
    whatever order, a second reconciliation of the same pull request returns
    and starts no label request. *)
Theorem second_run_starts_nothing (this : PullRequestLabelManager)
    (n : N) (repo : Repo) (pull : PullData) (answers : list (list string))
    (rs log : list Request) :
  categories_disjoint this →
  repo_pulls repo !! n = Some pull →
  None ∉ labels pull →
  allIssueLabels (findReferencedIssues this (default [] (body pull))) repo
    = inr answers →
  rs ≡ₚ started
         (final_state
            (copyLabelsFromReferencedIssues this n
               {| served := repo; started := [] |})) →
  copyLabelsFromReferencedIssues this n
    {| served := settle rs repo; started := log |}
  = Return () {| served := settle rs repo; started := log |}.
Proof.
  intros Hd Hpull Hnamed Hanswers Hrs.
  apply (recorded_requests this n repo pull answers rs Hpull Hanswers) in Hrs.
  destruct (settled_result this n repo pull answers rs Hpull Hnamed Hrs)
    as (L & Hsettle & HL & Hmem).
  apply copy_empty_diff with {| body := body pull; labels := L |} answers.
  - cbn [pulls_get recording_gateway memory_gateway served].
    by rewrite Hsettle, memory_lookup_set_labels.
  - cbn [body]. rewrite recording_allIssueLabels. cbn [served].
    rewrite Hsettle. by rewrite (memory_allIssueLabels_issues _ repo).
  - cbn [labels]. unfold reconcile in *. cbn [fst snd] in *.
    apply isEmptyDiff_same_set.
    set (issues := JsSet.of_array (concat answers)) in *.
    set (once := newPullLabels this
                   (JsSet.of_array (default "" <$> labels pull)) issues) in *.
    assert (Hs : same_set (JsSet.of_array (default "" <$> L)) once).
    { intros l. by rewrite elem_of_of_array, elem_of_named, Hmem. }
    intros l. rewrite (Hs l). symmetry.
    rewrite (newPullLabels_same_pull this _ once issues Hs l).
    by apply newPullLabels_twice.
Qed.

Lemma second_run_starts_nothing_witness :
  copyLabelsFromReferencedIssues defaultManager 1
    {| served :=
         settle
           (RemoveLabel 1 "feature-request"
              :: [AddLabels 1 ["p0"; "bug"]; RemoveLabel 1 "p2"])
           (scenarioRepo "Fixes #5");
       started := [] |}
  = Return ()
      {| served :=
           settle
             (RemoveLabel 1 "feature-request"
                :: [AddLabels 1 ["p0"; "bug"]; RemoveLabel 1 "p2"])
             (scenarioRepo "Fixes #5");
         started := [] |}.
Proof.
  apply (second_run_starts_nothing defaultManager 1
           (scenarioRepo "Fixes #5")
           {| body := Some (Text.of_string "Fixes #5");
              labels := [Some "p2"; Some "feature-request"] |}
           [["p0"; "bug"]]).
  - exact defaultManager_disjoint.
  - reflexivity.
  - apply (bool_decide_unpack _). vm_compute. exact I.
  - vm_compute. reflexivity.
  - apply (Permutation_cons_append
             [AddLabels 1 ["p0"; "bug"]; RemoveLabel 1 "p2"]
             (RemoveLabel 1 "feature-request")).
Defined.
